(** * Clarity / Stormphrax NNUE: incremental evaluation state

    A shallow embedding of [src/nnue.h] (namespace [stormphrax::eval]) and of
    the two helpers of [src/globals.cpp] it calls, followed by the properties
    of the feature indexer, the accumulator updates, the accumulator stack
    and the quantised forward pass.

    Conventions.
    - Fixed-width integers are values of [Z]; every conversion to a narrower
      or unsigned type is written out ([int16], [int32], [uint32]).
    - [std::array], [std::span] and [std::vector] are lists; an access
      outside the bounds is undefined behaviour in C++ and yields
      [Undefined] here, a failed [assert] yields [AssertFail].
    - [m_curr], a pointer into [m_accumulatorStack], is the position of the
      element it points to ([None] for the null pointer).  The source
      reassigns it after every operation that can move or resize the
      vector's storage, so positions and addresses agree. *)

From Stdlib Require Import ZArith Lia List Ascii.
From stdpp Require Import base decidable option list numbers.

Local Open Scope Z_scope.

(** ** Outcomes of a C++ computation *)

Inductive outcome (A : Type) : Type :=
| Ok (a : A)
| AssertFail
| Undefined.

Arguments Ok {A} a.
Arguments AssertFail {A}.
Arguments Undefined {A}.

#[global] Instance outcome_ret : MRet outcome := fun A a => Ok a.
#[global] Instance outcome_bind : MBind outcome := fun A B f m =>
  match m with
  | Ok a => f a
  | AssertFail => AssertFail
  | Undefined => Undefined
  end.

(** [assert(c)] *)
Definition assert (c : bool) : outcome unit :=
  if c then Ok tt else AssertFail.

(** [a[i]] on an array, span or vector: undefined outside the bounds. *)
Definition at_ {A : Type} (a : list A) (i : Z) : outcome A :=
  if 0 <=? i
  then match a !! Z.to_nat i with
       | Some x => Ok x
       | None => Undefined
       end
  else Undefined.

(** [a.size()] *)
Definition size {A : Type} (a : list A) : Z := Z.of_nat (length a).

(** ** Fixed-width integers

    [uint32 z] is the value of [z] as [std::uint32_t]; [int32 z] and
    [int16 z] are the two's complement values [z] has as [std::int32_t] and
    [std::int16_t] (what a conversion or a store into an [int16_t] array
    element keeps). *)

Definition uint32 (z : Z) : Z := z mod 2 ^ 32.
Definition int32 (z : Z) : Z := (z + 2 ^ 31) mod 2 ^ 32 - 2 ^ 31.
Definition int16 (z : Z) : Z := (z + 2 ^ 15) mod 2 ^ 16 - 2 ^ 15.

Definition is_int16 (z : Z) : Prop := - 2 ^ 15 <= z < 2 ^ 15.
Definition is_int32 (z : Z) : Prop := - 2 ^ 31 <= z < 2 ^ 31.

(** ** globals.h / globals.cpp *)

Module Globals.

(** [enum Pieces { Pawn, Knight, Bishop, Rook, Queen, King, None }] *)
Definition Pawn : Z := 0.
Definition Knight : Z := 1.
Definition Bishop : Z := 2.
Definition Rook : Z := 3.
Definition Queen : Z := 4.
Definition King : Z := 5.
Definition None : Z := 6.

Definition Black : Z := 0.
Definition White : Z := 8.

Definition getType (value : Z) : Z := Z.land value 7.
Definition getColor (value : Z) : Z := Z.shiftr value 3.

Definition flipIndex (index : Z) : Z := Z.lxor index 56.

End Globals.

(** ** nnue.h: constants and the weight store *)

Definition InputSize : Z := 768.
Definition Layer1Size : Z := 768.
Definition Scale : Z := 400.
Definition Q : Z := 255 * 64.

Record Network : Type := mkNetwork {
  featureWeights : list Z;   (* std::array<int16_t, InputSize * Layer1Size> *)
  featureBiases : list Z;    (* std::array<int16_t, Layer1Size> *)
  outputWeights : list Z;    (* std::array<int16_t, Layer1Size * 2> *)
  outputBias : Z             (* int16_t *)
}.

(** What the C++ types of [Network] guarantee. *)
Record Network_wf (n : Network) : Prop := mkNetwork_wf {
  fw_size : size (featureWeights n) = InputSize * Layer1Size;
  fb_size : size (featureBiases n) = Layer1Size;
  ow_size : size (outputWeights n) = Layer1Size * 2;
  fw_int16 : Forall is_int16 (featureWeights n);
  fb_int16 : Forall is_int16 (featureBiases n);
  ow_int16 : Forall is_int16 (outputWeights n);
  ob_int16 : is_int16 (outputBias n)
}.

(** ** The feature indexer *)

Definition ColorStride : Z := 64 * 6.
Definition PieceStride : Z := 64.

(** [!color] for an unsigned [color]. *)
Definition lognot (c : Z) : Z := if c =? 0 then 1 else 0.

(** Returns the pair [{blackIdx, whiteIdx}]. *)
Definition featureIndices (piece sq : Z) : outcome (Z * Z) :=
  _ ← assert (negb (piece =? Globals.None));
  _ ← assert (negb (sq =? 64));
  let type := uint32 (Globals.getType piece) in
  let color := if Globals.getColor piece =? 1 (* white *) then 0 else 1 in
  let blackIdx :=
    uint32 (uint32 (uint32 (lognot color * ColorStride) + uint32 (type * PieceStride))
            + Z.lxor (uint32 sq) 56) in
  let whiteIdx :=
    uint32 (uint32 (uint32 (color * ColorStride) + uint32 (type * PieceStride))
            + uint32 sq) in
  Ok (blackIdx, whiteIdx).

(** A piece identity of the board: type in the low three bits (0..5), colour
    in the next bit, nothing above. *)
Definition valid_piece (piece : Z) : Prop :=
  0 <= piece < 16 /\ Z.land piece 7 <= 5.

Definition valid_square (sq : Z) : Prop := 0 <= sq < 64.

(** Colour bit of a piece identity: 1 for white, 0 for black. *)
Definition colorBit (piece : Z) : Z := if Z.testbit piece 3 then 1 else 0.

(** The indexer as the specification words it: the white-perspective index
    uses the colour bit, the black-perspective index its complement. *)
Definition spec_whiteIdx (piece sq : Z) : Z :=
  colorBit piece * 384 + Z.land piece 7 * 64 + sq.
Definition spec_blackIdx (piece sq : Z) : Z :=
  (1 - colorBit piece) * 384 + Z.land piece 7 * 64 + Z.lxor sq 56.

(** ** Loops

    [for (std::uint32_t i = 0; i < Size; ++i) body]: [n] iterations remain,
    [i] is the current index, [s] the state the body updates. *)

Fixpoint for_from {St : Type} (n i : nat) (body : nat -> St -> outcome St)
  (s : St) : outcome St :=
  match n with
  | O => Ok s
  | S n' => s' ← body i s; for_from n' (S i) body s'
  end.

Definition for_range {St : Type} (Size : Z) (body : nat -> St -> outcome St)
  (s : St) : outcome St :=
  for_from (Z.to_nat Size) 0 body s.

(** ** Element-wise updates of one perspective vector

    [Size] is the template parameter, the length of [input].  The offsets
    are [std::uint32_t]; [offset + Size] is computed in [std::size_t], which
    a 32-bit value plus the array length cannot overflow. *)

Definition subtractAndAddToAll (Size : Z) (input delta : list Z)
  (subOffset addOffset : Z) : outcome (list Z) :=
  _ ← assert (subOffset + Size <=? size delta);
  _ ← assert (addOffset + Size <=? size delta);
  for_range Size (fun i input =>
    x ← at_ input (Z.of_nat i);
    a ← at_ delta (uint32 (addOffset + Z.of_nat i));
    s ← at_ delta (uint32 (subOffset + Z.of_nat i));
    Ok (<[i := int16 (int32 (x + int32 (a - s)))]> input)) input.

Definition addToAll (Size : Z) (input delta : list Z) (offset : Z)
  : outcome (list Z) :=
  _ ← assert (offset + Size <=? size delta);
  for_range Size (fun i input =>
    x ← at_ input (Z.of_nat i);
    d ← at_ delta (uint32 (offset + Z.of_nat i));
    Ok (<[i := int16 (int32 (x + d))]> input)) input.

Definition subtractFromAll (Size : Z) (input delta : list Z) (offset : Z)
  : outcome (list Z) :=
  _ ← assert (offset + Size <=? size delta);
  for_range Size (fun i input =>
    x ← at_ input (Z.of_nat i);
    d ← at_ delta (uint32 (offset + Z.of_nat i));
    Ok (<[i := int16 (int32 (x - d))]> input)) input.

(** ** Accumulator *)

Record Accumulator : Type := mkAccumulator {
  black : list Z;   (* std::array<int16_t, Layer1Size> *)
  white : list Z    (* std::array<int16_t, Layer1Size> *)
}.

(** [std::copy(src.begin(), src.end(), dst.begin())]: the first
    [src.size()] elements of [dst] are overwritten.  Source and destination
    of [init] have the same static length. *)
Definition std_copy (src dst : list Z) : list Z :=
  src ++ drop (length src) dst.

Definition init (bias : list Z) (a : Accumulator) : Accumulator :=
  {| black := std_copy bias (black a); white := std_copy bias (white a) |}.

(** A value-initialised [Accumulator], as [emplace_back()] constructs it. *)
Definition Accumulator_zero : Accumulator :=
  {| black := replicate (Z.to_nat Layer1Size) 0;
     white := replicate (Z.to_nat Layer1Size) 0 |}.

Record Accumulator_wf (a : Accumulator) : Prop := mkAccumulator_wf {
  black_size : size (black a) = Layer1Size;
  white_size : size (white a) = Layer1Size;
  black_int16 : Forall is_int16 (black a);
  white_int16 : Forall is_int16 (white a)
}.

(** ** The private static members of [NnueState], acting on one accumulator
    (suffix [_on]; the public members of the same name follow) *)

Definition moveFeature_on (g_nnue : Network) (accumulator : Accumulator)
  (piece src dst : Z) : outcome Accumulator :=
  '(blackSrc, whiteSrc) ← featureIndices piece src;
  '(blackDst, whiteDst) ← featureIndices piece dst;
  b ← subtractAndAddToAll Layer1Size (black accumulator) (featureWeights g_nnue)
        (uint32 (blackSrc * Layer1Size)) (uint32 (blackDst * Layer1Size));
  w ← subtractAndAddToAll Layer1Size (white accumulator) (featureWeights g_nnue)
        (uint32 (whiteSrc * Layer1Size)) (uint32 (whiteDst * Layer1Size));
  Ok {| black := b; white := w |}.

Definition activateFeature_on (g_nnue : Network) (accumulator : Accumulator)
  (piece sq : Z) : outcome Accumulator :=
  '(blackIdx, whiteIdx) ← featureIndices piece sq;
  b ← addToAll Layer1Size (black accumulator) (featureWeights g_nnue)
        (uint32 (blackIdx * Layer1Size));
  w ← addToAll Layer1Size (white accumulator) (featureWeights g_nnue)
        (uint32 (whiteIdx * Layer1Size));
  Ok {| black := b; white := w |}.

Definition deactivateFeature_on (g_nnue : Network) (accumulator : Accumulator)
  (piece sq : Z) : outcome Accumulator :=
  '(blackIdx, whiteIdx) ← featureIndices piece sq;
  b ← subtractFromAll Layer1Size (black accumulator) (featureWeights g_nnue)
        (uint32 (blackIdx * Layer1Size));
  w ← subtractFromAll Layer1Size (white accumulator) (featureWeights g_nnue)
        (uint32 (whiteIdx * Layer1Size));
  Ok {| black := b; white := w |}.

(** [std::clamp(v, lo, hi)] *)
Definition clamp (v lo hi : Z) : Z :=
  if v <? lo then lo else if hi <? v then hi else v.

Definition forward (us them weights : list Z) : outcome Z :=
  sum ← for_range Layer1Size (fun i sum =>
    u ← at_ us (Z.of_nat i);
    let activated := clamp (int32 u) 0 255 in
    w ← at_ weights (Z.of_nat i);
    Ok (int32 (sum + int32 (activated * w)))) 0;
  for_range Layer1Size (fun i sum =>
    t ← at_ them (Z.of_nat i);
    let activated := clamp (int32 t) 0 255 in
    w ← at_ weights (Layer1Size + Z.of_nat i);
    Ok (int32 (sum + int32 (activated * w)))) sum.

(** [/] on [int] truncates towards zero: [Z.quot]. *)
Definition evaluate_on (g_nnue : Network) (accumulator : Accumulator) (stm : Z)
  : outcome Z :=
  output ← (if stm =? 0 (* black *)
            then forward (black accumulator) (white accumulator) (outputWeights g_nnue)
            else forward (white accumulator) (black accumulator) (outputWeights g_nnue));
  Ok (Z.quot (int32 (int32 (output + outputBias g_nnue) * Scale)) Q).

(** ** NnueState *)

Record NnueState : Type := mkNnueState {
  m_accumulatorStack : list Accumulator;   (* std::vector<Accumulator> *)
  m_curr : option nat                      (* Accumulator * *)
}.

(** The default constructor: an empty vector and a null [m_curr]. *)
Definition NnueState_new : NnueState :=
  {| m_accumulatorStack := []; m_curr := None |}.

(** [&v.back()]; [back()] of an empty vector is undefined. *)
Definition back_ptr (v : list Accumulator) : outcome (option nat) :=
  match v with
  | [] => Undefined
  | _ :: _ => Ok (Some (length v - 1)%nat)
  end.

(** [*p] for a pointer into [v]. *)
Definition deref (v : list Accumulator) (p : option nat) : outcome Accumulator :=
  match p with
  | Some i => match v !! i with
              | Some a => Ok a
              | None => Undefined
              end
  | None => Undefined
  end.

(** [*p = a] for a pointer into [v]. *)
Definition store (v : list Accumulator) (p : option nat) (a : Accumulator)
  : list Accumulator :=
  match p with
  | Some i => <[i := a]> v
  | None => v
  end.

(** [assert(m_curr == &m_accumulatorStack.back())] *)
Definition assert_curr (st : NnueState) : outcome unit :=
  p ← back_ptr (m_accumulatorStack st);
  assert (bool_decide (m_curr st = p)).

Definition depth (st : NnueState) : nat := length (m_accumulatorStack st).

Definition push (st : NnueState) : outcome NnueState :=
  _ ← assert_curr st;
  a ← deref (m_accumulatorStack st) (m_curr st);
  let v := m_accumulatorStack st ++ [a] in
  p ← back_ptr v;
  Ok {| m_accumulatorStack := v; m_curr := p |}.

(** [pop_back()] of an empty vector is undefined, and so is [back()] of the
    vector it leaves empty.  There is no assertion. *)
Definition pop (st : NnueState) : outcome NnueState :=
  match m_accumulatorStack st with
  | [] => Undefined
  | _ :: _ =>
      let v := removelast (m_accumulatorStack st) in
      p ← back_ptr v;
      Ok {| m_accumulatorStack := v; m_curr := p |}
  end.

Definition reset (g_nnue : Network) (st : NnueState) : outcome NnueState :=
  let v := [] ++ [Accumulator_zero] in     (* clear(); emplace_back() *)
  p ← back_ptr v;
  a ← deref v p;
  Ok {| m_accumulatorStack := store v p (init (featureBiases g_nnue) a);
        m_curr := p |}.

(** The shape shared by the three public update members: check [m_curr],
    then run the static member on [*m_curr] in place. *)
Definition update_curr (st : NnueState)
  (f : Accumulator -> outcome Accumulator) : outcome NnueState :=
  _ ← assert_curr st;
  a ← deref (m_accumulatorStack st) (m_curr st);
  a' ← f a;
  Ok {| m_accumulatorStack := store (m_accumulatorStack st) (m_curr st) a';
        m_curr := m_curr st |}.

Definition moveFeature (g_nnue : Network) (st : NnueState) (piece src dst : Z)
  : outcome NnueState :=
  update_curr st (fun a => moveFeature_on g_nnue a piece src dst).

Definition activateFeature (g_nnue : Network) (st : NnueState) (piece sq : Z)
  : outcome NnueState :=
  update_curr st (fun a => activateFeature_on g_nnue a piece sq).

Definition deactivateFeature (g_nnue : Network) (st : NnueState) (piece sq : Z)
  : outcome NnueState :=
  update_curr st (fun a => deactivateFeature_on g_nnue a piece sq).

(** A [const] member: it returns the score and has no state to return. *)
Definition evaluate (g_nnue : Network) (st : NnueState) (stm : Z) : outcome Z :=
  _ ← assert_curr st;
  a ← deref (m_accumulatorStack st) (m_curr st);
  evaluate_on g_nnue a stm.

(** * Specification-level definitions *)

(** The element of [delta] at index [k], for statements (0 outside). *)
Definition row_at (delta : list Z) (k : Z) : Z :=
  default 0 (delta !! Z.to_nat k).

Definition blackIdx_of (piece sq : Z) : Z :=
  colorBit piece * 384 + Z.land piece 7 * 64 + Z.lxor sq 56.
Definition whiteIdx_of (piece sq : Z) : Z :=
  (1 - colorBit piece) * 384 + Z.land piece 7 * 64 + sq.

Definition add_row (W : list Z) (idx : Z) (v : list Z) : list Z :=
  imap (fun j x => int16 (int32 (x + row_at W (idx * Layer1Size + Z.of_nat j)))) v.
Definition sub_row (W : list Z) (idx : Z) (v : list Z) : list Z :=
  imap (fun j x => int16 (int32 (x - row_at W (idx * Layer1Size + Z.of_nat j)))) v.
Definition move_row (W : list Z) (subIdx addIdx : Z) (v : list Z) : list Z :=
  imap (fun j x =>
          int16 (int32 (x + int32 (row_at W (addIdx * Layer1Size + Z.of_nat j)
                                   - row_at W (subIdx * Layer1Size + Z.of_nat j))))) v.

(** The state whose vector is [v ++ [a]] and whose [m_curr] points at [a]. *)
Definition with_top (v : list Accumulator) (a : Accumulator) : NnueState :=
  {| m_accumulatorStack := v ++ [a]; m_curr := Some (length v) |}.

(** [*m_curr] *)
Definition current (st : NnueState) : outcome Accumulator :=
  deref (m_accumulatorStack st) (m_curr st).

(** The invariant of an initialised [NnueState]: the vector is not empty,
    [m_curr] points at its last element, every element is well typed. *)
Record NnueState_wf (st : NnueState) : Prop := mkNnueState_wf {
  curr_is_back : exists v a, st = with_top v a;
  stack_wf : Forall Accumulator_wf (m_accumulatorStack st)
}.

(** The states an engine can be in: anything [reset] produces, closed under
    the operations that succeed. *)
Inductive reachable (g_nnue : Network) : NnueState -> Prop :=
| reach_reset st0 st :
    reset g_nnue st0 = Ok st -> reachable g_nnue st
| reach_push st st' :
    reachable g_nnue st -> push st = Ok st' -> reachable g_nnue st'
| reach_pop st st' :
    reachable g_nnue st -> pop st = Ok st' -> reachable g_nnue st'
| reach_activate st st' piece sq :
    reachable g_nnue st -> activateFeature g_nnue st piece sq = Ok st' ->
    reachable g_nnue st'
| reach_deactivate st st' piece sq :
    reachable g_nnue st -> deactivateFeature g_nnue st piece sq = Ok st' ->
    reachable g_nnue st'
| reach_move st st' piece src dst :
    reachable g_nnue st -> moveFeature g_nnue st piece src dst = Ok st' ->
    reachable g_nnue st'.

Definition vector_wf (n : Z) (v : list Z) : Prop :=
  size v = n /\ Forall is_int16 v.

Definition dot (xs ys : list Z) : Z := foldr Z.add 0 (zip_with Z.mul xs ys).

(** The clipped activation of a hidden vector. *)
Definition crelu (v : list Z) : list Z := (fun x => clamp x 0 255) <$> v.

(** The score as the specification words it: the clipped [us] vector
    against the first half of the output weights, the clipped [them] vector
    against the second half, plus the output bias, scaled by [Scale / Q]. *)
Definition output_sum (g_nnue : Network) (us them : list Z) : Z :=
  dot (crelu us) (take (Z.to_nat Layer1Size) (outputWeights g_nnue))
  + dot (crelu them) (drop (Z.to_nat Layer1Size) (outputWeights g_nnue))
  + outputBias g_nnue.

Definition spec_score (g_nnue : Network) (us them : list Z) : Z :=
  Z.quot (int32 (output_sum g_nnue us them * Scale)) Q.

Inductive StackOp : Type := OpReset | OpPush | OpPop.

Definition step (g_nnue : Network) (op : StackOp) (st : NnueState)
  : outcome NnueState :=
  match op with
  | OpReset => reset g_nnue st
  | OpPush => push st
  | OpPop => pop st
  end.

Fixpoint run (g_nnue : Network) (ops : list StackOp) (st : NnueState)
  : outcome NnueState :=
  match ops with
  | [] => Ok st
  | op :: ops' => st' ← step g_nnue op st; run g_nnue ops' st'
  end.

(** Every [pop] of the sequence is called at a depth greater than 1. *)
Fixpoint pop_pre (g_nnue : Network) (ops : list StackOp) (st : NnueState) : Prop :=
  match ops with
  | [] => True
  | op :: ops' =>
      (op = OpPop -> (1 < depth st)%nat) /\
      match step g_nnue op st with
      | Ok st' => pop_pre g_nnue ops' st'
      | _ => True
      end
  end.

(** Pushes and pops since the last reset, counted from [(pushes, pops)]. *)
Fixpoint tally (ops : list StackOp) (pushes pops : nat) : nat * nat :=
  match ops with
  | [] => (pushes, pops)
  | OpReset :: ops' => tally ops' 0%nat 0%nat
  | OpPush :: ops' => tally ops' (S pushes) pops
  | OpPop :: ops' => tally ops' pushes (S pops)
  end.

Definition sample_net : Network :=
  {| featureWeights :=
       (fun k => int16 (Z.of_nat k)) <$> seq 0 (Z.to_nat (InputSize * Layer1Size));
     featureBiases := replicate (Z.to_nat Layer1Size) 7;
     outputWeights := replicate (Z.to_nat (Layer1Size * 2)) (-3);
     outputBias := 11 |}.

Definition sample_acc : Accumulator :=
  {| black := featureBiases sample_net; white := featureBiases sample_net |}.

Definition sample_state : NnueState := with_top [] sample_acc.

Definition white_pawn : Z := Globals.White + Globals.Pawn.

(** The state [reset] leaves, whatever the state before. *)
Definition reset_state (g_nnue : Network) : NnueState :=
  with_top [] (init (featureBiases g_nnue) Accumulator_zero).

(** * The rest of nnue.h and globals.cpp *)

(** ** nnue.h: copying an NnueState

    [reserve(256)] changes the capacity only and is left out. *)

(** The copy constructor: the vector is copied and [m_curr] is set to the
    last element of the copy. *)
Definition NnueState_copy (other : NnueState) : outcome NnueState :=
  let v := m_accumulatorStack other in
  p ← back_ptr v;
  Ok {| m_accumulatorStack := v; m_curr := p |}.

(** [operator=]; [same] tells whether [&other == this]. *)
Definition NnueState_assign (this other : NnueState) (same : bool)
  : outcome NnueState :=
  if same then Ok this
  else
    let v := m_accumulatorStack other in
    p ← back_ptr v;
    Ok {| m_accumulatorStack := v; m_curr := p |}.

(** ** globals.cpp: bitboards *)

Definition uint64 (z : Z) : Z := z mod 2 ^ 64.

(** [0b100000001000000010000000100000001000000010000000100000001] *)
Definition fileMask : Z := 72340172838076673.
(** [0b11111111] *)
Definition rankMask : Z := 255.

(** [x << n] on a [uint64_t]: undefined unless [0 <= n < 64]. *)
Definition shl64 (x n : Z) : outcome Z :=
  if (0 <=? n) && (n <? 64) then Ok (uint64 (Z.shiftl x n)) else Undefined.

Definition getFileMask (file : Z) : outcome Z := shl64 fileMask file.
Definition getRankMask (rank : Z) : outcome Z := shl64 rankMask (int32 (8 * rank)).

(** [std::countr_zero] on a [uint64_t]: the number of zero bits below the
    lowest set bit, 64 for zero. *)
Fixpoint countr_zero_pos (p : positive) : Z :=
  match p with
  | xO p' => 1 + countr_zero_pos p'
  | _ => 0
  end.

Definition countr_zero (x : Z) : Z :=
  match x with
  | Zpos p => countr_zero_pos p
  | _ => 64
  end.

(** Returns the pair of the result and the new value of [bitboard]. *)
Definition popLSB (bitboard : Z) : Z * Z :=
  let lsb := countr_zero bitboard in
  let bitboard := Z.land bitboard (uint64 (bitboard - 1)) in
  (lsb, bitboard).

(** ** globals.cpp: split *)

(** The characters [std::getline] extracts from a stream that is not at its
    end, up to the separator (which it consumes) or the end of the stream,
    and the characters it leaves. *)
Fixpoint read_segment (stream : list ascii) (seperator : ascii)
  : list ascii * list ascii :=
  match stream with
  | [] => ([], [])
  | c :: rest =>
      if Ascii.eqb c seperator then ([], rest)
      else let '(segment, rest') := read_segment rest seperator in
           (c :: segment, rest')
  end.

(** [std::getline(stream, segment, seperator)]: [None] when the stream is at
    its end, so that nothing is extracted and the call fails. *)
Definition getline (stream : list ascii) (seperator : ascii)
  : option (list ascii * list ascii) :=
  match stream with
  | [] => None
  | _ :: _ => Some (read_segment stream seperator)
  end.

(** The [while] loop of [split], pushing each segment onto [segments] (the
    vector [list] of the source); [None] when [fuel] iterations do not reach
    the end of the stream. *)
Fixpoint split_loop (fuel : nat) (stream : list ascii) (seperator : ascii)
  (segments : list (list ascii)) : option (list (list ascii)) :=
  match fuel with
  | O => None
  | S fuel' =>
      match getline stream seperator with
      | None => Some segments
      | Some (segment, rest) =>
          split_loop fuel' rest seperator (segments ++ [segment])
      end
  end.

Definition split (string : list ascii) (seperator : ascii)
  : option (list (list ascii)) :=
  split_loop (S (length string)) string seperator [].

(** * Sequences of feature updates *)

Inductive Update : Type :=
| UActivate (piece sq : Z)
| UDeactivate (piece sq : Z)
| UMove (piece src dst : Z).

Definition apply_update (g_nnue : Network) (u : Update) (st : NnueState)
  : outcome NnueState :=
  match u with
  | UActivate piece sq => activateFeature g_nnue st piece sq
  | UDeactivate piece sq => deactivateFeature g_nnue st piece sq
  | UMove piece src dst => moveFeature g_nnue st piece src dst
  end.

Fixpoint run_updates (g_nnue : Network) (us : list Update) (st : NnueState)
  : outcome NnueState :=
  match us with
  | [] => Ok st
  | u :: us' => st' ← apply_update g_nnue u st; run_updates g_nnue us' st'
  end.

Definition valid_update (u : Update) : Prop :=
  match u with
  | UActivate piece sq | UDeactivate piece sq => valid_piece piece /\ valid_square sq
  | UMove piece src dst => valid_piece piece /\ valid_square src /\ valid_square dst
  end.

(** The update that takes [u] back. *)
Definition inverse_update (u : Update) : Update :=
  match u with
  | UActivate piece sq => UDeactivate piece sq
  | UDeactivate piece sq => UActivate piece sq
  | UMove piece src dst => UMove piece dst src
  end.

(** The same piece in the other colour. *)
Definition mirror_piece (piece : Z) : Z := Z.lxor piece Globals.White.

(** The update [u] on the board with colours swapped and ranks mirrored. *)
Definition mirror_update (u : Update) : Update :=
  match u with
  | UActivate piece sq => UActivate (mirror_piece piece) (Globals.flipIndex sq)
  | UDeactivate piece sq => UDeactivate (mirror_piece piece) (Globals.flipIndex sq)
  | UMove piece src dst =>
      UMove (mirror_piece piece) (Globals.flipIndex src) (Globals.flipIndex dst)
  end.

(** What [u] adds to element [j] of the vector whose feature index is
    [side piece sq]. *)
Definition update_delta (W : list Z) (side : Z -> Z -> Z) (u : Update) (j : nat) : Z :=
  match u with
  | UActivate piece sq => row_at W (side piece sq * Layer1Size + Z.of_nat j)
  | UDeactivate piece sq => - row_at W (side piece sq * Layer1Size + Z.of_nat j)
  | UMove piece src dst =>
      row_at W (side piece dst * Layer1Size + Z.of_nat j)
      - row_at W (side piece src * Layer1Size + Z.of_nat j)
  end.

Definition net_delta (W : list Z) (side : Z -> Z -> Z) (us : list Update) (j : nat) : Z :=
  foldr (fun u acc => update_delta W side u j + acc) 0 us.

(** [v] with [d j] added to element [j], stored as [int16_t]. *)
Definition shift_vector (d : nat -> Z) (v : list Z) : list Z :=
  imap (fun j x => int16 (x + d j)) v.

Definition shift_acc (g_nnue : Network) (us : list Update) (a : Accumulator)
  : Accumulator :=
  {| black := shift_vector (net_delta (featureWeights g_nnue) blackIdx_of us) (black a);
     white := shift_vector (net_delta (featureWeights g_nnue) whiteIdx_of us) (white a) |}.

Definition swap_acc (a : Accumulator) : Accumulator :=
  {| black := white a; white := black a |}.

Definition clip_acc (a : Accumulator) : Accumulator :=
  {| black := crelu (black a); white := crelu (white a) |}.

Definition abs_sum (ws : list Z) : Z := foldr (fun w acc => Z.abs w + acc) 0 ws.

(** [s], closed by a separator unless it is empty or already ends with one. *)
Definition terminated (s : list ascii) (seperator : ascii) : list ascii :=
  match list.last s with
  | None => s
  | Some c => if Ascii.eqb c seperator then s else s ++ [seperator]
  end.

(** The sum of the weight rows [idxs] at element [j]. *)
Definition feature_sum (W : list Z) (idxs : list Z) (j : nat) : Z :=
  foldr (fun idx acc => row_at W (idx * Layer1Size + Z.of_nat j) + acc) 0 idxs.

(** The accumulator computed from scratch for the features [fs] (pairs of a
    piece and its square): bias plus the rows of all features. *)
Definition refresh (g_nnue : Network) (fs : list (Z * Z)) : Accumulator :=
  {| black := imap (fun j b =>
                      int16 (b + feature_sum (featureWeights g_nnue)
                                   (map (fun f => blackIdx_of f.1 f.2) fs) j))
                   (featureBiases g_nnue);
     white := imap (fun j b =>
                      int16 (b + feature_sum (featureWeights g_nnue)
                                   (map (fun f => whiteIdx_of f.1 f.2) fs) j))
                   (featureBiases g_nnue) |}.

Definition valid_feature (f : Z * Z) : Prop := valid_piece f.1 /\ valid_square f.2.

Definition activate_all (fs : list (Z * Z)) : list Update :=
  map (fun f => UActivate f.1 f.2) fs.

Definition black_pawn : Z := Globals.Black + Globals.Pawn.

Definition sample_updates : list Update :=
  [UActivate white_pawn 12; UMove white_pawn 12 28; UDeactivate black_pawn 52].

Definition sample_features : list (Z * Z) := [(white_pawn, 12); (black_pawn, 52)].

(** An update that passes a sentinel: the piece [None] or the square 64. *)
Definition uses_sentinel (u : Update) : Prop :=
  match u with
  | UActivate piece sq | UDeactivate piece sq => piece = Globals.None \/ sq = 64
  | UMove piece src dst => piece = Globals.None \/ src = 64 \/ dst = 64
  end.

(** The largest magnitude the output layer can produce with the weight
    store [g_nnue]: every clipped hidden value is at most 255. *)
Definition output_bound (g_nnue : Network) : Z :=
  255 * abs_sum (outputWeights g_nnue) + Z.abs (outputBias g_nnue).

(** The segments of [segs], each followed by a separator. *)
Definition join_terminated (seperator : ascii) (segs : list (list ascii)) : list ascii :=
  concat (map (fun seg => seg ++ [seperator]) segs).

Definition sample_string : list ascii :=
  ["a"; ","; ","; "b"; "c"; ","]%char.

(** ** globals.h: square names *)

Definition squareNames : list (list ascii) :=
  [
    ["a"; "1"]; ["b"; "1"]; ["c"; "1"]; ["d"; "1"]; ["e"; "1"]; ["f"; "1"]; ["g"; "1"]; ["h"; "1"];
    ["a"; "2"]; ["b"; "2"]; ["c"; "2"]; ["d"; "2"]; ["e"; "2"]; ["f"; "2"]; ["g"; "2"]; ["h"; "2"];
    ["a"; "3"]; ["b"; "3"]; ["c"; "3"]; ["d"; "3"]; ["e"; "3"]; ["f"; "3"]; ["g"; "3"]; ["h"; "3"];
    ["a"; "4"]; ["b"; "4"]; ["c"; "4"]; ["d"; "4"]; ["e"; "4"]; ["f"; "4"]; ["g"; "4"]; ["h"; "4"];
    ["a"; "5"]; ["b"; "5"]; ["c"; "5"]; ["d"; "5"]; ["e"; "5"]; ["f"; "5"]; ["g"; "5"]; ["h"; "5"];
    ["a"; "6"]; ["b"; "6"]; ["c"; "6"]; ["d"; "6"]; ["e"; "6"]; ["f"; "6"]; ["g"; "6"]; ["h"; "6"];
    ["a"; "7"]; ["b"; "7"]; ["c"; "7"]; ["d"; "7"]; ["e"; "7"]; ["f"; "7"]; ["g"; "7"]; ["h"; "7"];
    ["a"; "8"]; ["b"; "8"]; ["c"; "8"]; ["d"; "8"]; ["e"; "8"]; ["f"; "8"]; ["g"; "8"]; ["h"; "8"]
  ]%char.

#[global] Instance ascii_eq_dec : EqDecision ascii := Ascii.ascii_dec.

(** ** The score as the specification states it *)






(** A stack of two accumulators. *)
Definition sample_state2 : NnueState := with_top [sample_acc] sample_acc.


(** * Properties *)

(** ** Small runs of the model *)

Example featureIndices_white_pawn_a1 : featureIndices 8 0 = Ok (440, 0).
Proof. reflexivity. Qed.

Example featureIndices_black_pawn_a1 : featureIndices 0 0 = Ok (56, 384).
Proof. reflexivity. Qed.

Example featureIndices_white_king_h8 : featureIndices 13 63 = Ok (711, 383).
Proof. reflexivity. Qed.

Example featureIndices_black_king_h8 : featureIndices 5 63 = Ok (327, 767).
Proof. reflexivity. Qed.

Example featureIndices_none : featureIndices Globals.None 0 = AssertFail.
Proof. reflexivity. Qed.

Example addToAll_wraps : addToAll 2 [32767; 6] [1; 2; 3; 4] 0 = Ok [-32768; 8].
Proof. reflexivity. Qed.

Example addToAll_asserts : addToAll 2 [5; 6] [1; 2; 3; 4] 3 = AssertFail.
Proof. reflexivity. Qed.

Example subtractAndAddToAll_small :
  subtractAndAddToAll 2 [5; 6] [1; 2; 3; 4] 0 2 = Ok [7; 8].
Proof. reflexivity. Qed.

Example pop_new : pop NnueState_new = Undefined.
Proof. reflexivity. Qed.

(** ** Fixed-width arithmetic *)

Ltac wrap_arith :=
  unfold is_int16, is_int32, int16, int32, uint32 in *;
  change (2 ^ 32) with 4294967296 in *; change (2 ^ 31) with 2147483648 in *;
  change (2 ^ 16) with 65536 in *; change (2 ^ 15) with 32768 in *;
  Z.div_mod_to_equations; lia.

Lemma int16_range z : is_int16 (int16 z).
Proof. wrap_arith. Qed.

Lemma int32_range z : is_int32 (int32 z).
Proof. wrap_arith. Qed.

Lemma int16_id z : is_int16 z -> int16 z = z.
Proof. wrap_arith. Qed.

Lemma int32_id z : is_int32 z -> int32 z = z.
Proof. wrap_arith. Qed.

Lemma int32_of_int16 z : is_int16 z -> int32 z = z.
Proof. wrap_arith. Qed.

Lemma uint32_id z : 0 <= z < 4294967296 -> uint32 z = z.
Proof. wrap_arith. Qed.

(** Adding a row and subtracting it again, each stored as [int16_t]. *)
Lemma add_then_sub x d : is_int16 x -> int16 (int32 (int16 (int32 (x + d)) - d)) = x.
Proof. wrap_arith. Qed.

(** Subtracting one row then adding another, against the fused update. *)
Lemma sub_then_add x a s :
  int16 (int32 (int16 (int32 (x - s)) + a)) = int16 (int32 (x + int32 (a - s))).
Proof. wrap_arith. Qed.

Lemma fused_same x d : is_int16 x -> int16 (int32 (x + int32 (d - d))) = x.
Proof. wrap_arith. Qed.

Lemma int32_acc s a b : int32 (int32 (s + int32 a) + b) = int32 (s + (a + b)).
Proof. wrap_arith. Qed.

(** ** Piece identities and squares *)

Lemma lxor_56_range sq : valid_square sq -> 0 <= Z.lxor sq 56 < 64.
Proof.
  intros Hsq.
  assert (Hn : exists n, (n < 64)%nat /\ sq = Z.of_nat n)
    by (exists (Z.to_nat sq); unfold valid_square in Hsq; lia).
  destruct Hn as (n & Hn & ->).
  do 64 (destruct n as [|n]; [vm_compute; intuition congruence|]).
  lia.
Qed.

Lemma getType_range piece :
  valid_piece piece -> 0 <= Globals.getType piece <= 5.
Proof.
  intros [Hp Ht]. unfold Globals.getType. split; [|exact Ht].
  apply Z.land_nonneg. lia.
Qed.

Lemma getColor_colorBit piece :
  valid_piece piece -> Globals.getColor piece = colorBit piece.
Proof.
  intros [Hp _]. unfold Globals.getColor, colorBit.
  rewrite Z.testbit_odd, Z.shiftr_div_pow2 by lia.
  change (2 ^ 3) with 8.
  assert (Hq : piece / 8 = 0 \/ piece / 8 = 1) by (Z.div_mod_to_equations; lia).
  destruct Hq as [-> | ->]; reflexivity.
Qed.

Lemma colorBit_cases piece : colorBit piece = 0 \/ colorBit piece = 1.
Proof. unfold colorBit. destruct (Z.testbit piece 3); auto. Qed.

Lemma valid_piece_not_None piece : valid_piece piece -> piece <> Globals.None.
Proof. intros [_ Ht] ->. vm_compute in Ht. congruence. Qed.

(** What the indexer computes on a valid piece and square: the colour bit
    selects the upper half of the *black*-perspective index space. *)
Lemma featureIndices_valid piece sq :
  valid_piece piece -> valid_square sq ->
  featureIndices piece sq =
  Ok (colorBit piece * 384 + Z.land piece 7 * 64 + Z.lxor sq 56,
      (1 - colorBit piece) * 384 + Z.land piece 7 * 64 + sq).
Proof.
  intros Hp Hsq. unfold featureIndices.
  pose proof (valid_piece_not_None _ Hp) as Hn.
  pose proof (getType_range _ Hp) as Ht.
  pose proof (lxor_56_range _ Hsq) as Hx.
  destruct (Z.eqb_spec piece Globals.None) as [|_]; [done|].
  destruct (Z.eqb_spec sq 64) as [->|_]; [unfold valid_square in Hsq; lia|].
  cbn [negb assert mbind outcome_bind].
  rewrite (getColor_colorBit _ Hp).
  unfold Globals.getType in *. unfold valid_square in Hsq.
  unfold ColorStride, PieceStride, lognot.
  rewrite (uint32_id sq) by lia.
  rewrite (uint32_id (Z.land piece 7)) by lia.
  destruct (colorBit_cases piece) as [-> | ->]; simpl.
  all: f_equal; f_equal; wrap_arith.
Qed.

(** ** Array accesses *)

Lemma at_nat {A : Type} (a : list A) (i : nat) (x : A) :
  a !! i = Some x -> at_ a (Z.of_nat i) = Ok x.
Proof.
  intros Hx. unfold at_.
  destruct (Z.leb_spec 0 (Z.of_nat i)); [|lia].
  by rewrite Nat2Z.id, Hx.
Qed.

Lemma at_in_bounds (delta : list Z) (k : Z) :
  0 <= k < size delta -> at_ delta k = Ok (row_at delta k).
Proof.
  intros Hk. unfold at_, row_at, size in *.
  destruct (Z.leb_spec 0 k); [|lia].
  destruct (lookup_lt_is_Some_2 delta (Z.to_nat k)) as [x ->]; [lia|done].
Qed.

(** ** Loops *)

(** A loop whose body rewrites only [l[j]], from its old value and [j]. *)
Lemma for_from_pointwise (g : nat -> Z -> Z) (body : nat -> list Z -> outcome (list Z)) :
  forall (n i : nat) (l : list Z),
    (i + n <= length l)%nat ->
    (forall j l' x, (i <= j < i + n)%nat -> l' !! j = Some x ->
                    body j l' = Ok (<[j := g j x]> l')) ->
    for_from n i body l =
    Ok (imap (fun j x => if bool_decide (i <= j < i + n)%nat then g j x else x) l).
Proof.
  induction n as [|n IH]; intros i l Hlen Hbody.
  - cbn [for_from]. f_equal. apply list_eq. intros j.
    rewrite list_lookup_imap. destruct (l !! j) as [x|]; [|done].
    cbn. rewrite bool_decide_eq_false_2 by lia. done.
  - cbn [for_from].
    destruct (lookup_lt_is_Some_2 l i) as [x Hx]; [lia|].
    rewrite (Hbody i l x) by (done || lia). cbn [mbind outcome_bind].
    rewrite IH.
    + f_equal. apply list_eq. intros j. rewrite !list_lookup_imap.
      destruct (decide (i = j)) as [<-|Hne].
      * rewrite list_lookup_insert_eq, Hx by lia. cbn.
        rewrite bool_decide_eq_false_2 by lia.
        rewrite bool_decide_eq_true_2 by lia. done.
      * rewrite list_lookup_insert_ne by done.
        destruct (l !! j) as [y|]; [|done]. cbn.
        destruct (decide (S i <= j < S i + n)%nat).
        -- rewrite !bool_decide_eq_true_2 by lia. done.
        -- rewrite !bool_decide_eq_false_2 by lia. done.
    + rewrite length_insert. lia.
    + intros j l' y Hj Hy. apply Hbody; [lia|done].
Qed.

Lemma for_range_pointwise (g : nat -> Z -> Z) (body : nat -> list Z -> outcome (list Z))
  (Size : Z) (l : list Z) :
  size l = Size ->
  (forall j l' x, (j < length l)%nat -> l' !! j = Some x ->
                  body j l' = Ok (<[j := g j x]> l')) ->
  for_range Size body l = Ok (imap g l).
Proof.
  intros Hsz Hbody. unfold for_range, size in *.
  rewrite (for_from_pointwise g) by
    (try (intros; apply Hbody; [lia|done]); lia).
  f_equal. apply imap_ext. intros j x Hx.
  apply lookup_lt_Some in Hx.
  rewrite bool_decide_eq_true_2 by lia. done.
Qed.

(** ** The three element-wise updates, as maps over the vector *)

Section elementwise.
Variables (Size : Z) (input delta : list Z).
Hypothesis Hinput : size input = Size.
Hypothesis Hdelta : size delta < 4294967296.

Lemma addToAll_imap (offset : Z) :
0 <= offset -> offset + Size <= size delta ->
addToAll Size input delta offset =
Ok (imap (fun j x => int16 (int32 (x + row_at delta (offset + Z.of_nat j)))) input).
Proof.
intros H0 Hb. unfold addToAll.
destruct (Z.leb_spec (offset + Size) (size delta)); [|lia].
cbn [assert mbind outcome_bind].
apply for_range_pointwise; [done|].
intros j l' x Hj Hx. unfold size in *.
rewrite (at_nat _ _ _ Hx). cbn [mbind outcome_bind].
rewrite uint32_id by lia.
rewrite at_in_bounds by (unfold size; lia). done.
Qed.

Lemma subtractFromAll_imap (offset : Z) :
0 <= offset -> offset + Size <= size delta ->
subtractFromAll Size input delta offset =
Ok (imap (fun j x => int16 (int32 (x - row_at delta (offset + Z.of_nat j)))) input).
Proof.
intros H0 Hb. unfold subtractFromAll.
destruct (Z.leb_spec (offset + Size) (size delta)); [|lia].
cbn [assert mbind outcome_bind].
apply for_range_pointwise; [done|].
intros j l' x Hj Hx. unfold size in *.
rewrite (at_nat _ _ _ Hx). cbn [mbind outcome_bind].
rewrite uint32_id by lia.
rewrite at_in_bounds by (unfold size; lia). done.
Qed.

Lemma subtractAndAddToAll_imap (subOffset addOffset : Z) :
  0 <= subOffset -> subOffset + Size <= size delta ->
  0 <= addOffset -> addOffset + Size <= size delta ->
  subtractAndAddToAll Size input delta subOffset addOffset =
  Ok (imap (fun j x =>
              int16 (int32 (x + int32 (row_at delta (addOffset + Z.of_nat j)
                                       - row_at delta (subOffset + Z.of_nat j)))))
           input).
Proof.
  intros Hs0 Hsb Ha0 Hab. unfold subtractAndAddToAll.
  destruct (Z.leb_spec (subOffset + Size) (size delta)); [|lia].
  destruct (Z.leb_spec (addOffset + Size) (size delta)); [|lia].
  cbn [assert mbind outcome_bind].
  apply for_range_pointwise; [done|].
  intros j l' x Hj Hx. unfold size in *.
  rewrite (at_nat _ _ _ Hx). cbn [mbind outcome_bind].
  rewrite !uint32_id by lia.
  rewrite !at_in_bounds by (unfold size; lia). done.
Qed.
End elementwise.

(** ** Feature indices are rows of the weight matrix *)

Lemma featureIndices_of piece sq :
  valid_piece piece -> valid_square sq ->
  featureIndices piece sq = Ok (blackIdx_of piece sq, whiteIdx_of piece sq).
Proof. apply featureIndices_valid. Qed.

Lemma idx_range piece sq :
  valid_piece piece -> valid_square sq ->
  0 <= blackIdx_of piece sq < InputSize /\ 0 <= whiteIdx_of piece sq < InputSize.
Proof.
  intros Hp Hsq. unfold blackIdx_of, whiteIdx_of, InputSize.
  pose proof (getType_range _ Hp) as Ht. unfold Globals.getType in Ht.
  pose proof (lxor_56_range _ Hsq) as Hx. unfold valid_square in Hsq.
  destruct (colorBit_cases piece) as [-> | ->]; lia.
Qed.

Section feature_updates.
Variable g_nnue : Network.
Hypothesis Hnet : Network_wf g_nnue.
Variable acc : Accumulator.
Hypothesis Hb : size (black acc) = Layer1Size.
Hypothesis Hw : size (white acc) = Layer1Size.

Let W := featureWeights g_nnue.

Lemma row_in_bounds idx :
0 <= idx < InputSize ->
uint32 (idx * Layer1Size) = idx * Layer1Size /\
0 <= idx * Layer1Size /\
idx * Layer1Size + Layer1Size <= size W /\
size W < 4294967296.
Proof.
intros Hidx. subst W. rewrite (fw_size _ Hnet).
unfold InputSize, Layer1Size in *.
rewrite uint32_id by lia. lia.
Qed.

Lemma activateFeature_on_rows piece sq :
valid_piece piece -> valid_square sq ->
activateFeature_on g_nnue acc piece sq =
Ok {| black := add_row W (blackIdx_of piece sq) (black acc);
      white := add_row W (whiteIdx_of piece sq) (white acc) |}.
Proof.
intros Hp Hsq. unfold activateFeature_on.
rewrite featureIndices_of by done. cbn [mbind outcome_bind].
destruct (idx_range _ _ Hp Hsq) as [Hbi Hwi].
destruct (row_in_bounds _ Hbi) as (-> & ? & ? & ?).
destruct (row_in_bounds _ Hwi) as (-> & ? & ? & ?).
fold W. rewrite !addToAll_imap by done. done.
Qed.

Lemma deactivateFeature_on_rows piece sq :
valid_piece piece -> valid_square sq ->
deactivateFeature_on g_nnue acc piece sq =
Ok {| black := sub_row W (blackIdx_of piece sq) (black acc);
      white := sub_row W (whiteIdx_of piece sq) (white acc) |}.
Proof.
intros Hp Hsq. unfold deactivateFeature_on.
rewrite featureIndices_of by done. cbn [mbind outcome_bind].
destruct (idx_range _ _ Hp Hsq) as [Hbi Hwi].
destruct (row_in_bounds _ Hbi) as (-> & ? & ? & ?).
destruct (row_in_bounds _ Hwi) as (-> & ? & ? & ?).
fold W. rewrite !subtractFromAll_imap by done. done.
Qed.

Lemma moveFeature_on_rows piece src dst :
  valid_piece piece -> valid_square src -> valid_square dst ->
  moveFeature_on g_nnue acc piece src dst =
  Ok {| black := move_row W (blackIdx_of piece src) (blackIdx_of piece dst) (black acc);
        white := move_row W (whiteIdx_of piece src) (whiteIdx_of piece dst) (white acc) |}.
Proof.
  intros Hp Hsrc Hdst. unfold moveFeature_on.
  rewrite !featureIndices_of by done. cbn [mbind outcome_bind].
  destruct (idx_range _ _ Hp Hsrc) as [Hbs Hws].
  destruct (idx_range _ _ Hp Hdst) as [Hbd Hwd].
  destruct (row_in_bounds _ Hbs) as (-> & ? & ? & ?).
  destruct (row_in_bounds _ Hws) as (-> & ? & ? & ?).
  destruct (row_in_bounds _ Hbd) as (-> & ? & ? & ?).
  destruct (row_in_bounds _ Hwd) as (-> & ? & ? & ?).
  fold W. rewrite !subtractAndAddToAll_imap by done. done.
Qed.
End feature_updates.

(** Row updates keep the length and store [int16_t] values. *)
Lemma imap_int16 (f : nat -> Z -> Z) (v : list Z) :
  Forall is_int16 (imap (fun j x => int16 (f j x)) v).
Proof.
  apply Forall_lookup. intros j y. rewrite list_lookup_imap.
  destruct (v !! j); [|done]. intros [= <-]. apply int16_range.
Qed.

Lemma size_imap (f : nat -> Z -> Z) (v : list Z) : size (imap f v) = size v.
Proof. unfold size. by rewrite length_imap. Qed.

Lemma imap_imap_id (f g : nat -> Z -> Z) (v : list Z) :
  (forall j x, v !! j = Some x -> g j (f j x) = x) ->
  imap g (imap f v) = v.
Proof.
  intros H. apply list_eq. intros j. rewrite !list_lookup_imap.
  destruct (v !! j) as [x|] eqn:Hx; [|done]. cbn. by rewrite H.
Qed.

Lemma imap_id_on (f : nat -> Z -> Z) (v : list Z) :
  (forall j x, v !! j = Some x -> f j x = x) -> imap f v = v.
Proof.
  intros H. apply list_eq. intros j. rewrite list_lookup_imap.
  destruct (v !! j) as [x|] eqn:Hx; [|done]. cbn. by rewrite H.
Qed.

Lemma imap_imap_fuse (f g h : nat -> Z -> Z) (v : list Z) :
  (forall j x, g j (f j x) = h j x) -> imap g (imap f v) = imap h v.
Proof.
  intros H. apply list_eq. intros j. rewrite !list_lookup_imap.
  destruct (v !! j) as [x|]; [|done]. cbn. by rewrite H.
Qed.

Lemma sub_row_add_row W idx v :
  Forall is_int16 v -> sub_row W idx (add_row W idx v) = v.
Proof.
  intros Hv. apply imap_imap_id. intros j x Hx.
  apply add_then_sub. by eapply Forall_lookup_1.
Qed.

Lemma add_row_sub_row W s a v :
  add_row W a (sub_row W s v) = move_row W s a v.
Proof. apply imap_imap_fuse. intros j x. apply sub_then_add. Qed.

Lemma move_row_same W idx v : Forall is_int16 v -> move_row W idx idx v = v.
Proof.
  intros Hv. apply imap_id_on. intros j x Hx.
  apply fused_same. by eapply Forall_lookup_1.
Qed.

(** ** The accumulator stack *)

Lemma back_ptr_snoc v a : back_ptr (v ++ [a]) = Ok (Some (length v)).
Proof.
  unfold back_ptr. destruct v as [|b v]; [done|].
  cbn [app length]. rewrite length_app. cbn [length]. do 2 f_equal. lia.
Qed.

Lemma deref_snoc v a : deref (v ++ [a]) (Some (length v)) = Ok a.
Proof. unfold deref. by rewrite list_lookup_middle. Qed.

Lemma store_snoc v a a' : store (v ++ [a]) (Some (length v)) a' = v ++ [a'].
Proof.
  unfold store. rewrite insert_app_r_alt by lia.
  by rewrite Nat.sub_diag.
Qed.

Lemma assert_curr_top v a : assert_curr (with_top v a) = Ok tt.
Proof.
  unfold assert_curr, with_top. cbn [m_accumulatorStack m_curr].
  rewrite back_ptr_snoc. cbn [mbind outcome_bind].
  by rewrite bool_decide_eq_true_2.
Qed.

Lemma current_top v a : current (with_top v a) = Ok a.
Proof. apply deref_snoc. Qed.

Lemma depth_top v a : depth (with_top v a) = S (length v).
Proof. unfold depth, with_top. cbn. rewrite length_app. cbn. lia. Qed.

Lemma update_curr_top v a f :
  update_curr (with_top v a) f = a' ← f a; Ok (with_top v a').
Proof.
  unfold update_curr. rewrite assert_curr_top. cbn [mbind outcome_bind].
  unfold with_top. cbn [m_accumulatorStack m_curr].
  rewrite deref_snoc. cbn [mbind outcome_bind].
  destruct (f a) as [a'| |]; [|done..].
  cbn [mbind outcome_bind]. by rewrite store_snoc.
Qed.

Lemma push_top v a : push (with_top v a) = Ok (with_top (v ++ [a]) a).
Proof.
  unfold push. rewrite assert_curr_top. cbn [mbind outcome_bind].
  unfold with_top. cbn [m_accumulatorStack m_curr].
  rewrite deref_snoc. cbn [mbind outcome_bind].
  rewrite back_ptr_snoc. cbn [mbind outcome_bind].
  by rewrite length_app, Nat.add_1_r.
Qed.

Lemma pop_top v b a : pop (with_top (v ++ [b]) a) = Ok (with_top v b).
Proof.
  unfold pop, with_top. cbn [m_accumulatorStack m_curr].
  destruct ((v ++ [b]) ++ [a]) as [|c l] eqn:E.
  { by destruct v. }
  rewrite <- E, removelast_last, back_ptr_snoc. done.
Qed.

Lemma pop_single a : pop (with_top [] a) = Undefined.
Proof. reflexivity. Qed.

Lemma std_copy_full (src dst : list Z) :
  length dst = length src -> std_copy src dst = src.
Proof.
  intros H. unfold std_copy. rewrite drop_ge by lia. apply app_nil_r.
Qed.

Lemma init_bias (bias : list Z) (a : Accumulator) :
  size bias = Layer1Size ->
  size (black a) = Layer1Size -> size (white a) = Layer1Size ->
  init bias a = {| black := bias; white := bias |}.
Proof.
  unfold size. intros Hb Hab Haw. unfold init.
  rewrite !std_copy_full by lia. done.
Qed.

Lemma Accumulator_zero_size :
  size (black Accumulator_zero) = Layer1Size /\
  size (white Accumulator_zero) = Layer1Size.
Proof.
  unfold Accumulator_zero, size. cbn [black white].
  rewrite length_replicate. unfold Layer1Size. lia.
Qed.

Lemma reset_bias g_nnue st :
  size (featureBiases g_nnue) = Layer1Size ->
  reset g_nnue st =
  Ok (with_top [] {| black := featureBiases g_nnue; white := featureBiases g_nnue |}).
Proof.
  intros Hb. unfold reset.
  change ([] ++ [Accumulator_zero]) with ([] ++ [Accumulator_zero] : list Accumulator).
  rewrite back_ptr_snoc. cbn [mbind outcome_bind].
  rewrite deref_snoc. cbn [mbind outcome_bind].
  rewrite store_snoc.
  destruct Accumulator_zero_size as [Hzb Hzw].
  rewrite init_bias by done. done.
Qed.

(** [reset] never fails, whatever the weight store holds. *)
Lemma reset_top g_nnue st :
  exists a, reset g_nnue st = Ok (with_top [] a).
Proof.
  eexists. unfold reset.
  rewrite (back_ptr_snoc []). cbn [mbind outcome_bind].
  rewrite (deref_snoc []). cbn [mbind outcome_bind].
  rewrite (store_snoc []). done.
Qed.

Lemma reachable_top g_nnue st :
  reachable g_nnue st -> exists v a, st = with_top v a.
Proof.
  induction 1 as [st0 st Hr | st st' _ IH Hp | st st' _ IH Hp
                 | st st' p sq _ IH Hf | st st' p sq _ IH Hf
                 | st st' p s d _ IH Hf].
  - destruct (reset_top g_nnue st0) as [a Ha]. rewrite Ha in Hr.
    injection Hr as <-. eauto.
  - destruct IH as (v & a & ->). rewrite push_top in Hp.
    injection Hp as <-. eauto.
  - destruct IH as (v & a & ->).
    destruct v as [|b v _] using rev_ind; [by rewrite pop_single in Hp|].
    rewrite pop_top in Hp. injection Hp as <-. eauto.
  - destruct IH as (v & a & ->). unfold activateFeature in Hf.
    rewrite update_curr_top in Hf.
    destruct (activateFeature_on _ _ _ _) as [a'| |]; [|done..].
    injection Hf as <-. eauto.
  - destruct IH as (v & a & ->). unfold deactivateFeature in Hf.
    rewrite update_curr_top in Hf.
    destruct (deactivateFeature_on _ _ _ _) as [a'| |]; [|done..].
    injection Hf as <-. eauto.
  - destruct IH as (v & a & ->). unfold moveFeature in Hf.
    rewrite update_curr_top in Hf.
    destruct (moveFeature_on _ _ _ _ _) as [a'| |]; [|done..].
    injection Hf as <-. eauto.
Qed.

(** ** Well-typedness is preserved *)

Lemma for_from_invariant {St : Type} (P : St -> Prop) (body : nat -> St -> outcome St) :
  (forall j s s', P s -> body j s = Ok s' -> P s') ->
  forall n i s s', P s -> for_from n i body s = Ok s' -> P s'.
Proof.
  intros Hbody. induction n as [|n IH]; intros i s s' HP Hrun; cbn [for_from] in Hrun.
  - by injection Hrun as <-.
  - destruct (body i s) as [s1| |] eqn:Hb; [|done..].
    cbn [mbind outcome_bind] in Hrun. eapply IH; [|exact Hrun]. eauto.
Qed.

Lemma vector_wf_insert n v j z : vector_wf n v -> vector_wf n (<[j := int16 z]> v).
Proof.
  intros [Hs Hf]. split.
  - unfold size in *. by rewrite length_insert.
  - apply Forall_insert; [done|apply int16_range].
Qed.

Ltac outcome_inv H :=
  repeat match type of H with
         | context [mbind _ ?m] =>
             let E := fresh "E" in
             destruct m eqn:E; cbn [mbind outcome_bind] in H; [|discriminate H..]
         end.

Lemma addToAll_wf n Size input delta offset out :
  vector_wf n input -> addToAll Size input delta offset = Ok out -> vector_wf n out.
Proof.
  intros Hin H. unfold addToAll in H. outcome_inv H.
  revert H. apply for_from_invariant; [|done].
  intros j s s' Hs Hb. outcome_inv Hb. injection Hb as <-.
  by apply vector_wf_insert.
Qed.

Lemma subtractFromAll_wf n Size input delta offset out :
  vector_wf n input -> subtractFromAll Size input delta offset = Ok out -> vector_wf n out.
Proof.
  intros Hin H. unfold subtractFromAll in H. outcome_inv H.
  revert H. apply for_from_invariant; [|done].
  intros j s s' Hs Hb. outcome_inv Hb. injection Hb as <-.
  by apply vector_wf_insert.
Qed.

Lemma subtractAndAddToAll_wf n Size input delta subOffset addOffset out :
  vector_wf n input ->
  subtractAndAddToAll Size input delta subOffset addOffset = Ok out -> vector_wf n out.
Proof.
  intros Hin H. unfold subtractAndAddToAll in H. outcome_inv H.
  revert H. apply for_from_invariant; [|done].
  intros j s s' Hs Hb. outcome_inv Hb. injection Hb as <-.
  by apply vector_wf_insert.
Qed.

Lemma Accumulator_wf_vectors a :
  Accumulator_wf a <-> vector_wf Layer1Size (black a) /\ vector_wf Layer1Size (white a).
Proof.
  split.
  - intros [? ? ? ?]. by repeat split.
  - intros [[? ?] [? ?]]. by split.
Qed.

Lemma activateFeature_on_wf g_nnue a piece sq a' :
  Accumulator_wf a -> activateFeature_on g_nnue a piece sq = Ok a' -> Accumulator_wf a'.
Proof.
  rewrite !Accumulator_wf_vectors. intros [Hb Hw] H.
  unfold activateFeature_on in H. outcome_inv H.
  destruct a0 as [bi wi]. outcome_inv H. injection H as <-. cbn [black white].
  eauto using addToAll_wf.
Qed.

Lemma deactivateFeature_on_wf g_nnue a piece sq a' :
  Accumulator_wf a -> deactivateFeature_on g_nnue a piece sq = Ok a' -> Accumulator_wf a'.
Proof.
  rewrite !Accumulator_wf_vectors. intros [Hb Hw] H.
  unfold deactivateFeature_on in H. outcome_inv H.
  destruct a0 as [bi wi]. outcome_inv H. injection H as <-. cbn [black white].
  eauto using subtractFromAll_wf.
Qed.

Lemma moveFeature_on_wf g_nnue a piece src dst a' :
  Accumulator_wf a -> moveFeature_on g_nnue a piece src dst = Ok a' -> Accumulator_wf a'.
Proof.
  rewrite !Accumulator_wf_vectors. intros [Hb Hw] H.
  unfold moveFeature_on in H. outcome_inv H.
  destruct a0 as [bs ws]. outcome_inv H.
  destruct a0 as [bd wd]. outcome_inv H. injection H as <-. cbn [black white].
  eauto using subtractAndAddToAll_wf.
Qed.

Lemma with_top_wf v a :
  NnueState_wf (with_top v a) <-> Forall Accumulator_wf v /\ Accumulator_wf a.
Proof.
  split.
  - intros [_ Hf]. unfold with_top in Hf. cbn [m_accumulatorStack] in Hf.
    by rewrite Forall_app, Forall_singleton in Hf.
  - intros [Hv Ha]. split; [eauto|].
    unfold with_top. cbn [m_accumulatorStack].
    by rewrite Forall_app, Forall_singleton.
Qed.

Lemma update_curr_wf st st' f :
  (forall a a', Accumulator_wf a -> f a = Ok a' -> Accumulator_wf a') ->
  NnueState_wf st -> update_curr st f = Ok st' -> NnueState_wf st'.
Proof.
  intros Hf Hst H. destruct (curr_is_back _ Hst) as (v & a & ->).
  apply with_top_wf in Hst. destruct Hst as [Hv Ha].
  rewrite update_curr_top in H. outcome_inv H. injection H as <-.
  apply with_top_wf. eauto.
Qed.

Lemma reset_wf g_nnue :
  Network_wf g_nnue ->
  NnueState_wf (with_top [] {| black := featureBiases g_nnue;
                               white := featureBiases g_nnue |}).
Proof.
  intros Hnet. apply with_top_wf. split; [done|].
  split; cbn [black white]; first [apply (fb_size _ Hnet) | apply (fb_int16 _ Hnet)].
Qed.

Lemma reachable_wf g_nnue st :
  Network_wf g_nnue -> reachable g_nnue st -> NnueState_wf st.
Proof.
  intros Hnet. induction 1 as [st0 st Hr | st st' _ IH Hp | st st' _ IH Hp
                 | st st' p sq _ IH Hf | st st' p sq _ IH Hf
                 | st st' p s d _ IH Hf].
  - rewrite reset_bias in Hr by apply (fb_size _ Hnet).
    injection Hr as <-. by apply reset_wf.
  - destruct (curr_is_back _ IH) as (v & a & ->).
    rewrite push_top in Hp. injection Hp as <-.
    apply with_top_wf in IH. destruct IH as [Hv Ha]. apply with_top_wf.
    by rewrite Forall_app, Forall_singleton.
  - destruct (curr_is_back _ IH) as (v & a & ->).
    destruct v as [|b v _] using rev_ind; [by rewrite pop_single in Hp|].
    rewrite pop_top in Hp. injection Hp as <-.
    apply with_top_wf in IH. destruct IH as [Hv Ha]. apply with_top_wf.
    by rewrite Forall_app, Forall_singleton in Hv.
  - eapply update_curr_wf; [|exact IH|exact Hf].
    intros a a'. apply activateFeature_on_wf.
  - eapply update_curr_wf; [|exact IH|exact Hf].
    intros a a'. apply deactivateFeature_on_wf.
  - eapply update_curr_wf; [|exact IH|exact Hf].
    intros a a'. apply moveFeature_on_wf.
Qed.

(** ** The forward pass *)

(** A loop that accumulates [x_j * y_j] into a 32-bit sum. *)
Lemma for_from_dot (body : nat -> Z -> outcome Z) (xs ys : list Z) :
  (length xs <= length ys)%nat ->
  (forall j s x y, xs !! j = Some x -> ys !! j = Some y ->
                   body j s = Ok (int32 (s + int32 (x * y)))) ->
  forall (n i : nat) (s : Z),
    is_int32 s -> (i + n = length xs)%nat ->
    for_from n i body s = Ok (int32 (s + dot (drop i xs) (drop i ys))).
Proof.
  intros Hlen Hbody. induction n as [|n IH]; intros i s Hs Hn.
  - cbn [for_from]. rewrite (drop_ge xs) by lia. cbn.
    rewrite Z.add_0_r. by rewrite int32_id.
  - cbn [for_from].
    destruct (lookup_lt_is_Some_2 xs i) as [x Hx]; [lia|].
    destruct (lookup_lt_is_Some_2 ys i) as [y Hy]; [lia|].
    rewrite (Hbody i s x y) by done. cbn [mbind outcome_bind].
    rewrite IH by (apply int32_range || lia).
    rewrite (drop_S xs x i), (drop_S ys y i) by done.
    unfold dot at 2. cbn [zip_with foldr]. fold (dot (drop (S i) xs) (drop (S i) ys)).
    by rewrite int32_acc.
Qed.

Lemma crelu_lookup (v : list Z) (j : nat) (x : Z) :
  Forall is_int16 v -> crelu v !! j = Some x ->
  exists u, v !! j = Some u /\ x = clamp (int32 u) 0 255.
Proof.
  intros Hv Hx. unfold crelu in Hx. rewrite list_lookup_fmap in Hx.
  destruct (v !! j) as [u|] eqn:Hu; [|done]. injection Hx as <-.
  exists u. split; [done|]. rewrite int32_of_int16; [done|].
  by eapply Forall_lookup_1.
Qed.

Lemma forward_dot (us them weights : list Z) :
  vector_wf Layer1Size us -> vector_wf Layer1Size them ->
  size weights = Layer1Size * 2 ->
  forward us them weights =
  Ok (int32 (dot (crelu us) (take (Z.to_nat Layer1Size) weights)
             + dot (crelu them) (drop (Z.to_nat Layer1Size) weights))).
Proof.
  intros [Hus Hui] [Hts Hti] Hw. unfold forward, for_range, size in *.
  set (L := Z.to_nat Layer1Size) in *.
  assert (HL : Z.of_nat L = Layer1Size) by (subst L; unfold Layer1Size; lia).
  rewrite (for_from_dot _ (crelu us) (take L weights)).
  - cbn [mbind outcome_bind].
    rewrite (for_from_dot _ (crelu them) (drop L weights)).
    + rewrite !drop_0. f_equal. rewrite Z.add_0_l. wrap_arith.
    + unfold crelu. rewrite length_fmap, length_drop. lia.
    + intros j s x y Hx Hy.
      destruct (crelu_lookup _ _ _ Hti Hx) as (t & Ht & ->).
      rewrite lookup_drop in Hy.
      rewrite (at_nat _ _ _ Ht). cbn [mbind outcome_bind].
      rewrite <- HL, <- Nat2Z.inj_add, (at_nat _ _ _ Hy). done.
    + apply int32_range.
    + unfold crelu. rewrite length_fmap. lia.
  - unfold crelu. rewrite length_fmap, length_take. lia.
  - intros j s x y Hx Hy.
    destruct (crelu_lookup _ _ _ Hui Hx) as (u & Hu & ->).
    apply lookup_take_Some in Hy as [Hy _].
    rewrite (at_nat _ _ _ Hu). cbn [mbind outcome_bind].
    rewrite (at_nat _ _ _ Hy). done.
  - wrap_arith.
  - unfold crelu. rewrite length_fmap. lia.
Qed.

Lemma evaluate_on_score g_nnue a stm :
  Network_wf g_nnue -> Accumulator_wf a ->
  evaluate_on g_nnue a stm =
  Ok (if stm =? 0 then spec_score g_nnue (black a) (white a)
      else spec_score g_nnue (white a) (black a)).
Proof.
  intros Hnet Ha. apply Accumulator_wf_vectors in Ha. destruct Ha as [Hb Hw].
  unfold evaluate_on, spec_score, output_sum.
  destruct (stm =? 0);
    rewrite forward_dot by (done || apply (ow_size _ Hnet));
    cbn [mbind outcome_bind]; do 2 f_equal; unfold Scale; wrap_arith.
Qed.

Lemma clamp_range v lo hi : lo <= hi -> lo <= clamp v lo hi <= hi.
Proof.
  intros H. unfold clamp.
  destruct (Z.ltb_spec v lo); [lia|]. destruct (Z.ltb_spec hi v); lia.
Qed.

Lemma crelu_range v : Forall (fun x => 0 <= x <= 255) (crelu v).
Proof.
  unfold crelu. apply Forall_fmap, Forall_forall. intros x _.
  apply clamp_range. lia.
Qed.

Lemma evaluate_top g_nnue v a stm :
  evaluate g_nnue (with_top v a) stm = evaluate_on g_nnue a stm.
Proof.
  unfold evaluate. rewrite assert_curr_top. cbn [mbind outcome_bind].
  unfold with_top. cbn [m_accumulatorStack m_curr].
  by rewrite deref_snoc.
Qed.

(** ** Sequences of stack operations *)

Lemma pop_pre_app_l g_nnue pre suf st :
  pop_pre g_nnue (pre ++ suf) st -> pop_pre g_nnue pre st.
Proof.
  revert st. induction pre as [|op pre IH]; intros st; [done|].
  cbn [app pop_pre]. intros [Hop Hrest]. split; [done|].
  destruct (step g_nnue op st); auto.
Qed.

Lemma pop_deep v a : (1 < depth (with_top v a))%nat ->
  exists v' b, v = v' ++ [b] /\ pop (with_top v a) = Ok (with_top v' b).
Proof.
  rewrite depth_top. intros Hd.
  destruct v as [|b v' _] using rev_ind; [cbn in Hd; lia|].
  exists v', b. split; [done|]. apply pop_top.
Qed.

Lemma run_depth g_nnue ops :
  forall v a (pushes pops : nat),
    (depth (with_top v a) + pops = 1 + pushes)%nat ->
    pop_pre g_nnue ops (with_top v a) ->
    exists v' a',
      run g_nnue ops (with_top v a) = Ok (with_top v' a') /\
      (depth (with_top v' a') + (tally ops pushes pops).2
       = 1 + (tally ops pushes pops).1)%nat.
Proof.
  induction ops as [|op ops IH]; intros v a pushes pops Hd Hpre.
  - exists v, a. done.
  - cbn [pop_pre] in Hpre. destruct Hpre as [Hpop Hrest].
    cbn [run tally]. destruct op; cbn [step] in *.
    + destruct (reset_top g_nnue (with_top v a)) as [a0 Hr].
      rewrite Hr in *. cbn [mbind outcome_bind].
      apply IH; [|done]. rewrite depth_top. cbn. lia.
    + rewrite push_top in *. cbn [mbind outcome_bind].
      apply IH; [|done]. rewrite depth_top in *. rewrite length_app. cbn. lia.
    + destruct (pop_deep v a (Hpop eq_refl)) as (v' & b & -> & Hp).
      rewrite Hp in *. cbn [mbind outcome_bind].
      apply IH; [|done]. rewrite depth_top in *. rewrite length_app in Hd.
      cbn in Hd. lia.
Qed.

(** ** A concrete weight store and state *)

Lemma sample_net_wf : Network_wf sample_net.
Proof.
  split; unfold sample_net, size; cbn [featureWeights featureBiases outputWeights outputBias].
  - rewrite length_fmap, length_seq. unfold InputSize, Layer1Size. lia.
  - rewrite length_replicate. unfold Layer1Size. lia.
  - rewrite length_replicate. unfold Layer1Size. lia.
  - apply Forall_fmap, Forall_forall. intros k _. apply int16_range.
  - apply Forall_replicate. unfold is_int16. lia.
  - apply Forall_replicate. unfold is_int16. lia.
  - unfold is_int16. lia.
Qed.

Lemma sample_state_wf : NnueState_wf sample_state.
Proof. apply (reset_wf sample_net sample_net_wf). Qed.

Lemma sample_state_reachable : reachable sample_net sample_state.
Proof.
  apply (reach_reset sample_net NnueState_new).
  apply reset_bias, (fb_size _ sample_net_wf).
Qed.

Lemma white_pawn_valid : valid_piece white_pawn.
Proof. split; [vm_compute; intuition congruence | vm_compute; congruence]. Qed.

Lemma square_valid_12 : valid_square 12.
Proof. unfold valid_square. lia. Qed.

Lemma square_valid_28 : valid_square 28.
Proof. unfold valid_square. lia. Qed.

(** * The claims *)

(** C1, as the specification states it, fails: for the white pawn on a1
    the indexer returns black-perspective index 440 and white-perspective
    index 0, where the stated formulas give 56 and 384. *)
Lemma featureIndices_spec_refuted :
  featureIndices white_pawn 0 = Ok (440, 0) /\
  (spec_blackIdx white_pawn 0, spec_whiteIdx white_pawn 0) = (56, 384) /\
  ~ (forall piece sq, valid_piece piece -> valid_square sq ->
       featureIndices piece sq = Ok (spec_blackIdx piece sq, spec_whiteIdx piece sq)).
Proof.
  split; [reflexivity|]. split; [reflexivity|].
  intros H. specialize (H white_pawn 0 white_pawn_valid).
  assert (Hsq : valid_square 0) by (unfold valid_square; lia).
  specialize (H Hsq). vm_compute in H. discriminate H.
Qed.

(** C1 (amended): for every piece identity with type 0..5 in the low three
    bits and the colour in the next bit (set = white), and every square
    0..63, the indexer succeeds; the white-perspective index is
    (0 if the piece is white else 1) * 384 + pieceType * 64 + square and the
    black-perspective index is (1 if the piece is white else 0) * 384 +
    pieceType * 64 + (square XOR 56).  The pair is returned black first. *)
Theorem featureIndices_formula (piece sq : Z) :
  valid_piece piece -> valid_square sq ->
  exists blackIdx whiteIdx,
    featureIndices piece sq = Ok (blackIdx, whiteIdx) /\
    whiteIdx = (1 - colorBit piece) * 384 + Globals.getType piece * 64 + sq /\
    blackIdx = colorBit piece * 384 + Globals.getType piece * 64 + Z.lxor sq 56.
Proof.
  intros Hp Hsq. eexists _, _. split; [by apply featureIndices_valid|done].
Qed.

Lemma featureIndices_formula_witness :
  exists blackIdx whiteIdx,
    featureIndices white_pawn 12 = Ok (blackIdx, whiteIdx) /\
    whiteIdx = (1 - colorBit white_pawn) * 384 + Globals.getType white_pawn * 64 + 12 /\
    blackIdx = colorBit white_pawn * 384 + Globals.getType white_pawn * 64 + Z.lxor 12 56.
Proof.
  apply (featureIndices_formula white_pawn 12).
  - split; [vm_compute; intuition congruence | vm_compute; congruence].
  - unfold valid_square. lia.
Defined.

(** C2: on every well-formed state, for every valid piece and valid squares
    src <> dst, moveFeature(p, src, dst) succeeds and yields exactly the
    state that deactivateFeature(p, src) followed by activateFeature(p, dst)
    yields. *)
Theorem moveFeature_fusion (g_nnue : Network) (st : NnueState) (piece src dst : Z) :
  Network_wf g_nnue -> NnueState_wf st ->
  valid_piece piece -> valid_square src -> valid_square dst -> src <> dst ->
  exists st',
    moveFeature g_nnue st piece src dst = Ok st' /\
    (st1 ← deactivateFeature g_nnue st piece src;
     activateFeature g_nnue st1 piece dst) = Ok st'.
Proof.
  intros Hnet Hst Hp Hsrc Hdst _.
  destruct (curr_is_back _ Hst) as (v & a & ->).
  apply with_top_wf in Hst. destruct Hst as [_ [Hb Hw _ _]].
  unfold moveFeature, deactivateFeature, activateFeature.
  rewrite !update_curr_top.
  rewrite moveFeature_on_rows, deactivateFeature_on_rows by done.
  cbn [mbind outcome_bind]. eexists. split; [done|].
  rewrite update_curr_top.
  rewrite activateFeature_on_rows by
    (try done; cbn [black white]; unfold sub_row; by rewrite size_imap).
  cbn [mbind outcome_bind black white].
  by rewrite !add_row_sub_row.
Qed.

Lemma moveFeature_fusion_witness :
  exists st',
    moveFeature sample_net sample_state white_pawn 12 28 = Ok st' /\
    (st1 ← deactivateFeature sample_net sample_state white_pawn 12;
     activateFeature sample_net st1 white_pawn 28) = Ok st'.
Proof.
  apply (moveFeature_fusion sample_net sample_state white_pawn 12 28).
  - exact sample_net_wf.
  - exact sample_state_wf.
  - exact white_pawn_valid.
  - exact square_valid_12.
  - exact square_valid_28.
  - lia.
Defined.











(** C4: in every reachable state, at any depth, push() succeeds, the pop()
    that follows it succeeds, and the resulting state is the state before
    the push: the same vector of accumulators and the same current
    element. *)
Theorem push_pop_roundtrip (g_nnue : Network) (st : NnueState) :
  reachable g_nnue st ->
  exists st1 st2 a,
    push st = Ok st1 /\ pop st1 = Ok st2 /\
    current st = Ok a /\ current st2 = Ok a /\
    m_accumulatorStack st2 = m_accumulatorStack st /\
    st2 = st.
Proof.
  intros Hr. destruct (reachable_top _ _ Hr) as (v & a & ->).
  exists (with_top (v ++ [a]) a), (with_top v a), a.
  rewrite push_top, pop_top, current_top. done.
Qed.

Lemma push_pop_roundtrip_witness :
  exists st1 st2 a,
    push sample_state = Ok st1 /\ pop st1 = Ok st2 /\
    current sample_state = Ok a /\ current st2 = Ok a /\
    m_accumulatorStack st2 = m_accumulatorStack sample_state /\
    st2 = sample_state.
Proof.
  apply (push_pop_roundtrip sample_net sample_state).
  exact sample_state_reachable.
Defined.

(** C5: on every well-formed state, for every valid piece and square,
    activateFeature(p, s) followed by deactivateFeature(p, s) succeeds and
    returns the state it started from, under 16-bit wrap-around. *)
Theorem activate_deactivate_inverse (g_nnue : Network) (st : NnueState) (piece sq : Z) :
  Network_wf g_nnue -> NnueState_wf st ->
  valid_piece piece -> valid_square sq ->
  (st1 ← activateFeature g_nnue st piece sq;
   deactivateFeature g_nnue st1 piece sq) = Ok st.
Proof.
  intros Hnet Hst Hp Hsq.
  destruct (curr_is_back _ Hst) as (v & a & ->).
  apply with_top_wf in Hst. destruct Hst as [_ [Hb Hw Hbi Hwi]].
  unfold activateFeature, deactivateFeature.
  rewrite update_curr_top, activateFeature_on_rows by done.
  cbn [mbind outcome_bind]. rewrite update_curr_top.
  rewrite deactivateFeature_on_rows by
    (try done; cbn [black white]; unfold add_row; by rewrite size_imap).
  cbn [mbind outcome_bind black white].
  rewrite !sub_row_add_row by done. by destruct a.
Qed.

Lemma activate_deactivate_inverse_witness :
  (st1 ← activateFeature sample_net sample_state white_pawn 12;
   deactivateFeature sample_net st1 white_pawn 12) = Ok sample_state.
Proof.
  apply (activate_deactivate_inverse sample_net sample_state white_pawn 12).
  - exact sample_net_wf.
  - exact sample_state_wf.
  - exact white_pawn_valid.
  - exact square_valid_12.
Defined.

Lemma reset_eq g_nnue st : reset g_nnue st = Ok (reset_state g_nnue).
Proof.
  unfold reset.
  rewrite (back_ptr_snoc []). cbn [mbind outcome_bind].
  rewrite (deref_snoc []). cbn [mbind outcome_bind].
  rewrite (store_snoc []). done.
Qed.

(** C6: reset() succeeds from any state and leaves depth 1; in a reachable
    state push() succeeds and adds 1 to the depth, and pop() at depth > 1
    succeeds and takes 1 off; and after reset(), every prefix of a sequence
    of reset/push/pop calls whose pops are all made at depth > 1 runs to a
    state whose depth is 1 + pushes - pops, counted since the last reset,
    and is at least 1. *)
Theorem depth_invariant (g_nnue : Network) (st0 : NnueState) :
  reset g_nnue st0 = Ok (reset_state g_nnue) /\
  depth (reset_state g_nnue) = 1%nat /\
  (forall st, reachable g_nnue st ->
      exists st', push st = Ok st' /\ depth st' = S (depth st)) /\
  (forall st, reachable g_nnue st -> (1 < depth st)%nat ->
      exists st', pop st = Ok st' /\ S (depth st') = depth st) /\
  (forall pre suf, pop_pre g_nnue (pre ++ suf) (reset_state g_nnue) ->
      exists st',
        run g_nnue pre (reset_state g_nnue) = Ok st' /\
        (depth st' + (tally pre 0 0).2 = 1 + (tally pre 0 0).1)%nat /\
        (1 <= depth st')%nat).
Proof.
  split; [apply reset_eq|]. split; [done|]. split; [|split].
  - intros st Hst. destruct (reachable_top _ _ Hst) as (v & a & ->).
    eexists. rewrite push_top. split; [done|].
    rewrite !depth_top, length_app. cbn. lia.
  - intros st Hst Hd. destruct (reachable_top _ _ Hst) as (v & a & ->).
    destruct (pop_deep v a Hd) as (v' & b & -> & Hp).
    eexists. split; [exact Hp|]. rewrite !depth_top, length_app. cbn. lia.
  - intros pre suf Hpre. apply pop_pre_app_l in Hpre. unfold reset_state in *.
    destruct (run_depth g_nnue pre [] _ 0%nat 0%nat eq_refl Hpre)
      as (v' & a' & Hrun & Hd).
    eexists. split; [exact Hrun|]. split; [exact Hd|].
    rewrite depth_top. lia.
Qed.

Lemma depth_invariant_witness :
  exists st',
    run sample_net [OpPush; OpPush; OpPop] (reset_state sample_net) = Ok st' /\
    (depth st' + (tally [OpPush; OpPush; OpPop] 0 0).2
     = 1 + (tally [OpPush; OpPush; OpPop] 0 0).1)%nat /\
    (1 <= depth st')%nat.
Proof.
  apply (proj2 (proj2 (proj2 (proj2 (depth_invariant sample_net NnueState_new))))
           [OpPush; OpPush; OpPop] [OpPop; OpReset; OpPush]).
  unfold reset_state. cbn [app pop_pre step].
  split; [discriminate|]. rewrite push_top.
  split; [discriminate|]. rewrite push_top.
  split; [intros _; rewrite depth_top, length_app; cbn; lia|]. rewrite pop_top.
  split; [intros _; rewrite depth_top, length_app; cbn; lia|]. rewrite pop_top.
  split; [discriminate|]. rewrite reset_eq. unfold reset_state.
  split; [discriminate|]. rewrite push_top. exact I.
Defined.

(** C7, as the specification states it, fails: pop() on the single-element
    stack that reset() leaves is not stopped by any assertion; it runs into
    the undefined [back()] of the vector it has just emptied. *)
Lemma pop_not_detected :
  depth sample_state = 1%nat /\
  pop sample_state = Undefined /\
  ~ (forall st, (depth st <= 1)%nat -> pop st = AssertFail).
Proof.
  split; [done|]. split; [apply pop_single|].
  intros H. specialize (H sample_state (le_n 1)).
  unfold sample_state in H. rewrite pop_single in H. discriminate H.
Qed.

(** C7 (amended): pop() checks nothing.  It never fails an assertion; at
    depth greater than 1 it succeeds, removes the last element and makes the
    element before it, now the last, the current one ([m_curr] points at
    it); at depth 0 or 1 it is undefined behaviour of the vector
    ([pop_back()] of an empty vector, or [back()] of the vector just
    emptied). *)
Theorem pop_unchecked (st : NnueState) :
  pop st <> AssertFail /\
  ((depth st <= 1)%nat -> pop st = Undefined) /\
  ((1 < depth st)%nat ->
     exists v b a st',
       m_accumulatorStack st = v ++ [b; a] /\
       pop st = Ok st' /\
       m_accumulatorStack st' = v ++ [b] /\
       m_curr st' = Some (length v) /\
       current st' = Ok b /\
       S (depth st') = depth st /\
       m_accumulatorStack st' = removelast (m_accumulatorStack st)).
Proof.
  destruct st as [l c]. unfold pop, depth. cbn [m_accumulatorStack].
  destruct l as [|a l _] using rev_ind.
  { split; [done|]. split; [done|]. cbn. lia. }
  destruct (l ++ [a]) as [|y l'] eqn:E; [by destruct l|]. rewrite <- E.
  rewrite removelast_last, length_app. cbn [length].
  destruct l as [|b v _] using rev_ind.
  - cbn [back_ptr mbind outcome_bind]. split; [done|]. split; [done|]. cbn. lia.
  - rewrite back_ptr_snoc. cbn [mbind outcome_bind].
    split; [done|]. split; [rewrite length_app; cbn; lia|]. intros _.
    exists v, b, a. eexists. split; [by rewrite <- app_assoc|].
    split; [done|]. cbn [m_accumulatorStack m_curr].
    split; [done|]. split; [done|].
    split; [apply (current_top v b)|].
    split; [rewrite !length_app; cbn; lia|done].
Qed.

Lemma pop_unchecked_witness :
  pop sample_state = Undefined /\
  exists v b a st',
    m_accumulatorStack sample_state2 = v ++ [b; a] /\
    pop sample_state2 = Ok st' /\
    m_accumulatorStack st' = v ++ [b] /\
    m_curr st' = Some (length v) /\
    current st' = Ok b /\
    S (depth st') = depth sample_state2 /\
    m_accumulatorStack st' = removelast (m_accumulatorStack sample_state2).
Proof.
  split.
  - apply (proj1 (proj2 (pop_unchecked sample_state))).
    unfold sample_state. rewrite depth_top. cbn. lia.
  - apply (proj2 (proj2 (pop_unchecked sample_state2))).
    unfold sample_state2. rewrite depth_top. cbn. lia.
Defined.

(** C8: if the weight store is well typed, reset() from any state succeeds
    and leaves a stack of exactly one accumulator, the current one, whose
    black and white vectors both equal the hidden-bias vector; and init with
    the bias vector turns any accumulator into that one. *)
Theorem reset_installs_bias (g_nnue : Network) (st : NnueState) :
  Network_wf g_nnue ->
  exists st' a,
    reset g_nnue st = Ok st' /\
    m_accumulatorStack st' = [a] /\ current st' = Ok a /\
    black a = featureBiases g_nnue /\ white a = featureBiases g_nnue /\
    (forall a0, size (black a0) = Layer1Size -> size (white a0) = Layer1Size ->
                init (featureBiases g_nnue) a0 = a).
Proof.
  intros Hnet. pose proof (fb_size _ Hnet) as Hb.
  eexists _, _. rewrite reset_bias by done.
  split; [done|]. split; [done|]. rewrite current_top.
  split; [done|]. split; [done|]. split; [done|].
  intros a0 H0b H0w. by apply init_bias.
Qed.

Lemma reset_installs_bias_witness :
  exists st' a,
    reset sample_net sample_state = Ok st' /\
    m_accumulatorStack st' = [a] /\ current st' = Ok a /\
    black a = featureBiases sample_net /\ white a = featureBiases sample_net /\
    (forall a0, size (black a0) = Layer1Size -> size (white a0) = Layer1Size ->
                init (featureBiases sample_net) a0 = a).
Proof.
  apply (reset_installs_bias sample_net sample_state).
  exact sample_net_wf.
Defined.

(** C9: for a valid piece and valid squares, both feature indices are below
    768, each weight row [idx * 768 .. idx * 768 + 767] lies inside the
    768 x 768 feature-weight array, and on a well-formed state
    activateFeature, deactivateFeature and moveFeature run to completion:
    no assertion fails and no access is out of bounds. *)
Theorem feature_rows_in_bounds (g_nnue : Network) (st : NnueState) (piece sq dst : Z) :
  Network_wf g_nnue -> NnueState_wf st ->
  valid_piece piece -> valid_square sq -> valid_square dst ->
  exists blackIdx whiteIdx,
    featureIndices piece sq = Ok (blackIdx, whiteIdx) /\
    0 <= blackIdx < 768 /\ 0 <= whiteIdx < 768 /\
    size (featureWeights g_nnue) = 768 * 768 /\
    0 <= uint32 (blackIdx * Layer1Size) /\
    uint32 (blackIdx * Layer1Size) + Layer1Size <= size (featureWeights g_nnue) /\
    0 <= uint32 (whiteIdx * Layer1Size) /\
    uint32 (whiteIdx * Layer1Size) + Layer1Size <= size (featureWeights g_nnue) /\
    (exists st', activateFeature g_nnue st piece sq = Ok st') /\
    (exists st', deactivateFeature g_nnue st piece sq = Ok st') /\
    (exists st', moveFeature g_nnue st piece sq dst = Ok st').
Proof.
  intros Hnet Hst Hp Hsq Hdst.
  destruct (curr_is_back _ Hst) as (v & a & ->).
  apply with_top_wf in Hst. destruct Hst as [_ [Hb Hw _ _]].
  destruct (idx_range _ _ Hp Hsq) as [Hbi Hwi].
  destruct (row_in_bounds _ Hnet _ Hbi) as (Eb & ? & ? & ?).
  destruct (row_in_bounds _ Hnet _ Hwi) as (Ew & ? & ? & ?).
  exists (blackIdx_of piece sq), (whiteIdx_of piece sq).
  rewrite Eb, Ew. unfold activateFeature, deactivateFeature, moveFeature.
  rewrite !update_curr_top.
  rewrite activateFeature_on_rows, deactivateFeature_on_rows,
    moveFeature_on_rows by done.
  cbn [mbind outcome_bind].
  split; [by apply featureIndices_of|].
  split; [exact Hbi|]. split; [exact Hwi|].
  split; [apply (fw_size _ Hnet)|].
  repeat (split; [done|]). split; [|split]; by eexists.
Qed.

Lemma feature_rows_in_bounds_witness :
  exists blackIdx whiteIdx,
    featureIndices white_pawn 12 = Ok (blackIdx, whiteIdx) /\
    0 <= blackIdx < 768 /\ 0 <= whiteIdx < 768 /\
    size (featureWeights sample_net) = 768 * 768 /\
    0 <= uint32 (blackIdx * Layer1Size) /\
    uint32 (blackIdx * Layer1Size) + Layer1Size <= size (featureWeights sample_net) /\
    0 <= uint32 (whiteIdx * Layer1Size) /\
    uint32 (whiteIdx * Layer1Size) + Layer1Size <= size (featureWeights sample_net) /\
    (exists st', activateFeature sample_net sample_state white_pawn 12 = Ok st') /\
    (exists st', deactivateFeature sample_net sample_state white_pawn 12 = Ok st') /\
    (exists st', moveFeature sample_net sample_state white_pawn 12 28 = Ok st').
Proof.
  apply (feature_rows_in_bounds sample_net sample_state white_pawn 12 28).
  - exact sample_net_wf.
  - exact sample_state_wf.
  - exact white_pawn_valid.
  - exact square_valid_12.
  - exact square_valid_28.
Defined.

(** C10: on every well-formed state, for every valid piece and square,
    moveFeature(p, s, s) succeeds and returns the state unchanged. *)
Theorem moveFeature_same_square (g_nnue : Network) (st : NnueState) (piece sq : Z) :
  Network_wf g_nnue -> NnueState_wf st ->
  valid_piece piece -> valid_square sq ->
  moveFeature g_nnue st piece sq sq = Ok st.
Proof.
  intros Hnet Hst Hp Hsq.
  destruct (curr_is_back _ Hst) as (v & a & ->).
  apply with_top_wf in Hst. destruct Hst as [_ [Hb Hw Hbi Hwi]].
  unfold moveFeature. rewrite update_curr_top, moveFeature_on_rows by done.
  cbn [mbind outcome_bind]. rewrite !move_row_same by done. by destruct a.
Qed.

Lemma moveFeature_same_square_witness :
  moveFeature sample_net sample_state white_pawn 12 12 = Ok sample_state.
Proof.
  apply (moveFeature_same_square sample_net sample_state white_pawn 12).
  - exact sample_net_wf.
  - exact sample_state_wf.
  - exact white_pawn_valid.
  - exact square_valid_12.
Defined.

(** * Further properties *)

(** ** Feature updates as shifts of the vectors *)

Lemma int16_int32 z : int16 (int32 z) = int16 z.
Proof. wrap_arith. Qed.

Lemma shift_vector_ext (d d' : nat -> Z) (v : list Z) :
  (forall j, d j = d' j) -> shift_vector d v = shift_vector d' v.
Proof. intros H. apply imap_ext. intros j x _. cbn. by rewrite H. Qed.

Lemma shift_vector_shift (d1 d2 : nat -> Z) (v : list Z) :
  shift_vector d2 (shift_vector d1 v) = shift_vector (fun j => d1 j + d2 j) v.
Proof. apply imap_imap_fuse. intros j x. wrap_arith. Qed.

Lemma shift_vector_zero (d : nat -> Z) (v : list Z) :
  (forall j, d j = 0) -> Forall is_int16 v -> shift_vector d v = v.
Proof.
  intros Hd Hv. apply imap_id_on. intros j x Hx. rewrite Hd, Z.add_0_r.
  apply int16_id. by eapply Forall_lookup_1.
Qed.

Lemma shift_vector_wf n d v : size v = n -> vector_wf n (shift_vector d v).
Proof.
  intros Hs. split; [unfold shift_vector; by rewrite size_imap|].
  apply imap_int16.
Qed.

Lemma add_row_shift W idx v :
  add_row W idx v = shift_vector (fun j => row_at W (idx * Layer1Size + Z.of_nat j)) v.
Proof. apply imap_ext. intros j x _. apply int16_int32. Qed.

Lemma sub_row_shift W idx v :
  sub_row W idx v = shift_vector (fun j => - row_at W (idx * Layer1Size + Z.of_nat j)) v.
Proof. apply imap_ext. intros j x _. cbn. wrap_arith. Qed.

Lemma move_row_shift W s a v :
  move_row W s a v =
  shift_vector (fun j => row_at W (a * Layer1Size + Z.of_nat j)
                         - row_at W (s * Layer1Size + Z.of_nat j)) v.
Proof. apply imap_ext. intros j x _. cbn. wrap_arith. Qed.

Lemma net_delta_cons W side u us j :
  net_delta W side (u :: us) j = update_delta W side u j + net_delta W side us j.
Proof. reflexivity. Qed.

Lemma net_delta_app W side us1 us2 j :
  net_delta W side (us1 ++ us2) j = net_delta W side us1 j + net_delta W side us2 j.
Proof.
  induction us1 as [|u us1 IH]; [done|].
  cbn [app]. rewrite !net_delta_cons, IH. lia.
Qed.

Lemma net_delta_inverse W side us j :
  net_delta W side (map inverse_update us) j = - net_delta W side us j.
Proof.
  induction us as [|u us IH]; [done|].
  cbn [map]. rewrite !net_delta_cons, IH. destruct u; cbn; lia.
Qed.

Lemma net_delta_rev W side us j :
  net_delta W side (rev us) j = net_delta W side us j.
Proof.
  induction us as [|u us IH]; [done|].
  cbn [rev]. rewrite net_delta_app, IH, !net_delta_cons. cbn. lia.
Qed.

Lemma net_delta_perm W side us us' j :
  Permutation us us' -> net_delta W side us j = net_delta W side us' j.
Proof.
  induction 1 as [|u us us' _ IH|u1 u2 us|us1 us2 us3 _ IH1 _ IH2].
  - done.
  - by rewrite !net_delta_cons, IH.
  - rewrite !net_delta_cons. lia.
  - by rewrite IH1.
Qed.

Lemma shift_acc_wf g_nnue us a :
  Accumulator_wf a -> Accumulator_wf (shift_acc g_nnue us a).
Proof.
  intros [Hb Hw _ _]. apply Accumulator_wf_vectors.
  split; cbn [shift_acc black white]; by apply shift_vector_wf.
Qed.

Lemma shift_acc_nil g_nnue a : Accumulator_wf a -> shift_acc g_nnue [] a = a.
Proof.
  intros [_ _ Hb Hw]. destruct a as [b w]. unfold shift_acc. cbn [black white] in *.
  by rewrite !shift_vector_zero.
Qed.

Lemma shift_acc_cons g_nnue u us a :
  shift_acc g_nnue us (shift_acc g_nnue [u] a) = shift_acc g_nnue (u :: us) a.
Proof.
  unfold shift_acc. cbn [black white]. rewrite !shift_vector_shift.
  f_equal; apply shift_vector_ext; intros j; rewrite !net_delta_cons; cbn; lia.
Qed.

Lemma apply_update_top g_nnue v a u :
  Network_wf g_nnue -> Accumulator_wf a -> valid_update u ->
  apply_update g_nnue u (with_top v a) = Ok (with_top v (shift_acc g_nnue [u] a)).
Proof.
  intros Hnet [Hb Hw _ _] Hu. unfold shift_acc, net_delta.
  destruct u as [p s|p s|p s d]; cbn [apply_update valid_update foldr update_delta] in *.
  - destruct Hu as [Hp Hs]. unfold activateFeature.
    rewrite update_curr_top, activateFeature_on_rows by done.
    cbn [mbind outcome_bind]. rewrite !add_row_shift.
    do 3 f_equal; apply shift_vector_ext; intros j; lia.
  - destruct Hu as [Hp Hs]. unfold deactivateFeature.
    rewrite update_curr_top, deactivateFeature_on_rows by done.
    cbn [mbind outcome_bind]. rewrite !sub_row_shift.
    do 3 f_equal; apply shift_vector_ext; intros j; lia.
  - destruct Hu as (Hp & Hs & Hd). unfold moveFeature.
    rewrite update_curr_top, moveFeature_on_rows by done.
    cbn [mbind outcome_bind]. rewrite !move_row_shift.
    do 3 f_equal; apply shift_vector_ext; intros j; lia.
Qed.

(** A run of valid updates adds the net change of the run to the current
    accumulator and touches nothing else. *)
Lemma run_updates_top g_nnue us :
  Network_wf g_nnue -> Forall valid_update us ->
  forall v a, Accumulator_wf a ->
    run_updates g_nnue us (with_top v a) = Ok (with_top v (shift_acc g_nnue us a)).
Proof.
  intros Hnet. induction 1 as [|u us Hu Hus IH]; intros v a Ha.
  - cbn [run_updates]. by rewrite shift_acc_nil.
  - cbn [run_updates]. rewrite apply_update_top by done.
    cbn [mbind outcome_bind]. rewrite IH by by apply shift_acc_wf.
    by rewrite shift_acc_cons.
Qed.

Lemma shift_acc_ext g_nnue us us' a :
  (forall side j, net_delta (featureWeights g_nnue) side us j
                  = net_delta (featureWeights g_nnue) side us' j) ->
  shift_acc g_nnue us a = shift_acc g_nnue us' a.
Proof.
  intros H. unfold shift_acc. f_equal; apply shift_vector_ext; intros j; apply H.
Qed.

Lemma valid_update_inverse u : valid_update u -> valid_update (inverse_update u).
Proof. destruct u; cbn; tauto. Qed.

Lemma black_pawn_valid : valid_piece black_pawn.
Proof. split; [vm_compute; intuition congruence | vm_compute; congruence]. Qed.

Lemma square_valid_52 : valid_square 52.
Proof. unfold valid_square. lia. Qed.

Lemma sample_updates_valid : Forall valid_update sample_updates.
Proof.
  pose proof white_pawn_valid. pose proof black_pawn_valid.
  pose proof square_valid_12. pose proof square_valid_28. pose proof square_valid_52.
  repeat constructor; done.
Qed.

Lemma sample_features_valid : Forall valid_feature sample_features.
Proof.
  pose proof white_pawn_valid. pose proof black_pawn_valid.
  pose proof square_valid_12. pose proof square_valid_52.
  repeat constructor; done.
Qed.

Lemma net_delta_activate_all W side fs j :
  net_delta W side (activate_all fs) j
  = feature_sum W (map (fun f => side f.1 f.2) fs) j.
Proof.
  induction fs as [|f fs IH]; [done|].
  cbn [activate_all map]. rewrite net_delta_cons. fold (activate_all fs).
  rewrite IH. reflexivity.
Qed.

Lemma activate_all_valid fs :
  Forall valid_feature fs -> Forall valid_update (activate_all fs).
Proof.
  intros H. unfold activate_all. apply Forall_fmap.
  eapply List.Forall_impl; [|exact H]. intros [p s] Hf. exact Hf.
Qed.

(** * Further theorems *)

(** X1: a search node leaves no trace.  On a well-formed state, push()
    followed by any run of valid feature updates succeeds and is one deeper
    than the state before; the pop() after it gives that state back
    exactly. *)
Theorem search_node_roundtrip (g_nnue : Network) (st : NnueState) (us : list Update) :
  Network_wf g_nnue -> NnueState_wf st -> Forall valid_update us ->
  exists st1 st2,
    push st = Ok st1 /\ run_updates g_nnue us st1 = Ok st2 /\
    depth st2 = S (depth st) /\ pop st2 = Ok st.
Proof.
  intros Hnet Hst Hus. destruct (curr_is_back _ Hst) as (v & a & ->).
  apply with_top_wf in Hst. destruct Hst as [_ Ha].
  eexists _, _. rewrite push_top. split; [done|].
  rewrite run_updates_top by done. split; [done|].
  rewrite pop_top, !depth_top, length_app. cbn. split; [lia|done].
Qed.

Lemma search_node_roundtrip_witness :
  exists st1 st2,
    push sample_state = Ok st1 /\ run_updates sample_net sample_updates st1 = Ok st2 /\
    depth st2 = S (depth sample_state) /\ pop st2 = Ok sample_state.
Proof.
  apply (search_node_roundtrip sample_net sample_state sample_updates).
  - exact sample_net_wf.
  - exact sample_state_wf.
  - exact sample_updates_valid.
Defined.

(** X2: a run of valid feature updates is taken back by the inverse updates
    in reverse order (deactivate for activate, the move back for a move):
    the state is restored exactly, without push() and pop(). *)
Theorem updates_undone_by_inverses (g_nnue : Network) (st : NnueState) (us : list Update) :
  Network_wf g_nnue -> NnueState_wf st -> Forall valid_update us ->
  run_updates g_nnue (us ++ map inverse_update (rev us)) st = Ok st.
Proof.
  intros Hnet Hst Hus. destruct (curr_is_back _ Hst) as (v & a & ->).
  apply with_top_wf in Hst. destruct Hst as [_ Ha].
  rewrite run_updates_top; [|done| |done].
  - do 2 f_equal. rewrite <- (shift_acc_nil g_nnue a Ha) at 2.
    apply shift_acc_ext. intros side j.
    rewrite net_delta_app, net_delta_inverse, net_delta_rev. cbn. lia.
  - apply Forall_app. split; [done|]. apply Forall_fmap, Forall_rev.
    eapply List.Forall_impl; [|exact Hus]. apply valid_update_inverse.
Qed.

Lemma updates_undone_by_inverses_witness :
  run_updates sample_net (sample_updates ++ map inverse_update (rev sample_updates))
    sample_state = Ok sample_state.
Proof.
  apply (updates_undone_by_inverses sample_net sample_state sample_updates).
  - exact sample_net_wf.
  - exact sample_state_wf.
  - exact sample_updates_valid.
Defined.

(** X3: the order of feature updates does not matter.  On a well-formed
    state, a run of valid updates and any permutation of it both succeed and
    reach the same state. *)
Theorem updates_order_independent (g_nnue : Network) (st : NnueState)
  (us us' : list Update) :
  Network_wf g_nnue -> NnueState_wf st -> Forall valid_update us ->
  Permutation us us' ->
  exists st',
    run_updates g_nnue us st = Ok st' /\ run_updates g_nnue us' st = Ok st'.
Proof.
  intros Hnet Hst Hus Hperm. destruct (curr_is_back _ Hst) as (v & a & ->).
  apply with_top_wf in Hst. destruct Hst as [_ Ha].
  assert (Hus' : Forall valid_update us') by by rewrite <- Hperm.
  eexists. rewrite !run_updates_top by done. split; [done|].
  do 2 f_equal. apply shift_acc_ext. intros side j.
  symmetry. by apply net_delta_perm.
Qed.

Lemma updates_order_independent_witness :
  exists st',
    run_updates sample_net sample_updates sample_state = Ok st' /\
    run_updates sample_net (rev sample_updates) sample_state = Ok st'.
Proof.
  apply (updates_order_independent sample_net sample_state sample_updates).
  - exact sample_net_wf.
  - exact sample_state_wf.
  - exact sample_updates_valid.
  - apply Permutation_rev.
Defined.

(** X4: incremental update agrees with computing from scratch.  After
    reset() and activateFeature for each of a list of valid features, the
    current accumulator holds, in each perspective and at each element, the
    bias plus the sum of the weight rows of those features (at the indices
    featureIndices returns), reduced to 16 bits. *)
Theorem incremental_equals_refresh (g_nnue : Network) (st0 : NnueState)
  (fs : list (Z * Z)) :
  Network_wf g_nnue -> Forall valid_feature fs ->
  exists st1,
    reset g_nnue st0 = Ok st1 /\
    run_updates g_nnue (activate_all fs) st1 = Ok (with_top [] (refresh g_nnue fs)) /\
    Forall (fun f => featureIndices f.1 f.2 = Ok (blackIdx_of f.1 f.2, whiteIdx_of f.1 f.2)) fs.
Proof.
  intros Hnet Hfs. eexists. rewrite reset_bias by apply (fb_size _ Hnet).
  split; [done|]. split.
  - rewrite run_updates_top; [|done|by apply activate_all_valid|].
    + do 2 f_equal. unfold shift_acc, refresh, shift_vector. cbn [black white].
      f_equal; apply imap_ext; intros j x _; cbn;
        by rewrite net_delta_activate_all.
    + apply (proj1 (with_top_wf [] _) (reset_wf _ Hnet)).
  - eapply List.Forall_impl; [|exact Hfs]. intros [p s] [Hp Hs]. by apply featureIndices_of.
Qed.

Lemma incremental_equals_refresh_witness :
  exists st1,
    reset sample_net NnueState_new = Ok st1 /\
    run_updates sample_net (activate_all sample_features) st1
    = Ok (with_top [] (refresh sample_net sample_features)) /\
    Forall (fun f => featureIndices f.1 f.2 = Ok (blackIdx_of f.1 f.2, whiteIdx_of f.1 f.2))
      sample_features.
Proof.
  apply (incremental_equals_refresh sample_net NnueState_new sample_features).
  - exact sample_net_wf.
  - exact sample_features_valid.
Defined.

(** ** Updates with arbitrary arguments *)

Lemma uint32_range z : 0 <= uint32 z < 4294967296.
Proof. wrap_arith. Qed.

Lemma featureIndices_defined piece sq : featureIndices piece sq <> Undefined.
Proof.
  unfold featureIndices.
  destruct (negb (piece =? Globals.None)); [|done].
  destruct (negb (sq =? 64)); done.
Qed.

Section guarded.
Variables (input delta : list Z).
Hypothesis Hinput : size input = Layer1Size.
Hypothesis Hdelta : size delta < 4294967296.

Lemma addToAll_guarded z :
  addToAll Layer1Size input delta (uint32 z) <> Undefined.
Proof.
  pose proof (uint32_range z) as Hz.
  destruct (Z.leb_spec (uint32 z + Layer1Size) (size delta)) as [Hle|Hgt].
  - rewrite addToAll_imap by (done || lia). done.
  - unfold addToAll. destruct (Z.leb_spec (uint32 z + Layer1Size) (size delta)); [lia|done].
Qed.

Lemma subtractFromAll_guarded z :
  subtractFromAll Layer1Size input delta (uint32 z) <> Undefined.
Proof.
  pose proof (uint32_range z) as Hz.
  destruct (Z.leb_spec (uint32 z + Layer1Size) (size delta)) as [Hle|Hgt].
  - rewrite subtractFromAll_imap by (done || lia). done.
  - unfold subtractFromAll.
    destruct (Z.leb_spec (uint32 z + Layer1Size) (size delta)); [lia|done].
Qed.

Lemma subtractAndAddToAll_guarded z z' :
  subtractAndAddToAll Layer1Size input delta (uint32 z) (uint32 z') <> Undefined.
Proof.
  pose proof (uint32_range z) as Hz. pose proof (uint32_range z') as Hz'.
  destruct (Z.leb_spec (uint32 z + Layer1Size) (size delta)) as [Hle|Hgt];
    [destruct (Z.leb_spec (uint32 z' + Layer1Size) (size delta)) as [Hle'|Hgt']|].
  - rewrite subtractAndAddToAll_imap by (done || lia). done.
  - unfold subtractAndAddToAll.
    destruct (Z.leb_spec (uint32 z + Layer1Size) (size delta)); [|lia].
    destruct (Z.leb_spec (uint32 z' + Layer1Size) (size delta)); [lia|done].
  - unfold subtractAndAddToAll.
    destruct (Z.leb_spec (uint32 z + Layer1Size) (size delta)); [lia|done].
Qed.
End guarded.

Lemma bind_defined {A B : Type} (m : outcome A) (f : A -> outcome B) :
  m <> Undefined -> (forall a, m = Ok a -> f a <> Undefined) -> m ≫= f <> Undefined.
Proof. intros Hm Hf. destruct m as [a| |]; cbn; [by apply Hf|done|done]. Qed.

Lemma fw_size_lt g_nnue : Network_wf g_nnue -> size (featureWeights g_nnue) < 4294967296.
Proof. intros H. rewrite (fw_size _ H). unfold InputSize, Layer1Size. lia. Qed.

Lemma activateFeature_on_defined g_nnue a piece sq :
  Network_wf g_nnue -> Accumulator_wf a ->
  activateFeature_on g_nnue a piece sq <> Undefined.
Proof.
  intros Hnet [Hb Hw _ _]. pose proof (fw_size_lt _ Hnet).
  unfold activateFeature_on.
  apply bind_defined; [apply featureIndices_defined|]. intros [bi wi] _.
  apply bind_defined; [by apply addToAll_guarded|]. intros b _.
  apply bind_defined; [by apply addToAll_guarded|]. done.
Qed.

Lemma deactivateFeature_on_defined g_nnue a piece sq :
  Network_wf g_nnue -> Accumulator_wf a ->
  deactivateFeature_on g_nnue a piece sq <> Undefined.
Proof.
  intros Hnet [Hb Hw _ _]. pose proof (fw_size_lt _ Hnet).
  unfold deactivateFeature_on.
  apply bind_defined; [apply featureIndices_defined|]. intros [bi wi] _.
  apply bind_defined; [by apply subtractFromAll_guarded|]. intros b _.
  apply bind_defined; [by apply subtractFromAll_guarded|]. done.
Qed.

Lemma moveFeature_on_defined g_nnue a piece src dst :
  Network_wf g_nnue -> Accumulator_wf a ->
  moveFeature_on g_nnue a piece src dst <> Undefined.
Proof.
  intros Hnet [Hb Hw _ _]. pose proof (fw_size_lt _ Hnet).
  unfold moveFeature_on.
  apply bind_defined; [apply featureIndices_defined|]. intros [bs ws] _.
  apply bind_defined; [apply featureIndices_defined|]. intros [bd wd] _.
  apply bind_defined; [by apply subtractAndAddToAll_guarded|]. intros b _.
  apply bind_defined; [by apply subtractAndAddToAll_guarded|]. done.
Qed.

Lemma featureIndices_sentinel piece sq :
  piece = Globals.None \/ sq = 64 -> featureIndices piece sq = AssertFail.
Proof.
  intros [-> | ->]; unfold featureIndices; [done|].
  destruct (negb (piece =? Globals.None)); done.
Qed.

(** X5: the assertions guard every array access.  On a well-formed state no
    feature update, whatever integers it is given, reads or writes outside
    an array: it either completes or stops at an assertion.  It stops at an
    assertion whenever the piece is [None] or a square is 64. *)
Theorem updates_never_out_of_bounds (g_nnue : Network) (st : NnueState) (u : Update) :
  Network_wf g_nnue -> NnueState_wf st ->
  apply_update g_nnue u st <> Undefined /\
  (uses_sentinel u -> apply_update g_nnue u st = AssertFail).
Proof.
  intros Hnet Hst. destruct (curr_is_back _ Hst) as (v & a & ->).
  apply with_top_wf in Hst. destruct Hst as [_ Ha].
  destruct u as [p s|p s|p s d];
    cbn [apply_update uses_sentinel];
    unfold activateFeature, deactivateFeature, moveFeature;
    rewrite update_curr_top.
  - split.
    + apply bind_defined; [by apply activateFeature_on_defined|done].
    + intros Hs. unfold activateFeature_on.
      by rewrite featureIndices_sentinel.
  - split.
    + apply bind_defined; [by apply deactivateFeature_on_defined|done].
    + intros Hs. unfold deactivateFeature_on.
      by rewrite featureIndices_sentinel.
  - split.
    + apply bind_defined; [by apply moveFeature_on_defined|done].
    + intros Hs. unfold moveFeature_on.
      destruct (featureIndices p s) as [[bs ws]| |] eqn:Es;
        [|done|by destruct (featureIndices_defined p s)].
      cbn [mbind outcome_bind].
      rewrite featureIndices_sentinel; [done|].
      destruct Hs as [Hs|[Hs|Hs]]; [left; done| |right; done].
      rewrite featureIndices_sentinel in Es by (right; done). done.
Qed.

Lemma updates_never_out_of_bounds_witness :
  apply_update sample_net (UActivate 7 (-1)) sample_state <> Undefined /\
  apply_update sample_net (UMove white_pawn 12 64) sample_state = AssertFail.
Proof.
  split.
  - apply (updates_never_out_of_bounds sample_net sample_state (UActivate 7 (-1))).
    + exact sample_net_wf.
    + exact sample_state_wf.
  - apply (updates_never_out_of_bounds sample_net sample_state (UMove white_pawn 12 64)).
    + exact sample_net_wf.
    + exact sample_state_wf.
    + right. right. reflexivity.
Defined.

(** ** The index space *)

Lemma piece_decompose piece :
  valid_piece piece -> piece = 8 * colorBit piece + Z.land piece 7.
Proof.
  intros Hp. rewrite <- (getColor_colorBit _ Hp). destruct Hp as [Hr _].
  unfold Globals.getColor. rewrite Z.shiftr_div_pow2 by lia.
  change 7 with (Z.ones 3). rewrite Z.land_ones by lia.
  change (2 ^ 3) with 8. Z.div_mod_to_equations. lia.
Qed.

Lemma lxor_56_involutive sq : Z.lxor (Z.lxor sq 56) 56 = sq.
Proof. by rewrite Z.lxor_assoc, Z.lxor_nilpotent, Z.lxor_0_r. Qed.

Lemma valid_piece_cases piece :
  valid_piece piece ->
  exists c t, piece = 8 * c + t /\ (c = 0 \/ c = 1) /\ 0 <= t <= 5 /\
              colorBit piece = c /\ Z.land piece 7 = t.
Proof.
  intros Hp. exists (colorBit piece), (Z.land piece 7).
  split; [by apply piece_decompose|]. split; [apply colorBit_cases|].
  split; [apply (getType_range _ Hp)|done].
Qed.

Lemma piece_of_fields c t :
  (c = 0 \/ c = 1) -> 0 <= t <= 5 ->
  valid_piece (8 * c + t) /\ colorBit (8 * c + t) = c /\ Z.land (8 * c + t) 7 = t.
Proof.
  intros Hc Ht.
  assert (Hn : exists n, (n <= 5)%nat /\ t = Z.of_nat n) by (exists (Z.to_nat t); lia).
  destruct Hn as (n & Hn & ->).
  destruct Hc as [-> | ->];
    do 6 (destruct n as [|n];
          [split; [split; vm_compute; intuition congruence|split; reflexivity]|]);
    lia.
Qed.

(** X6: distinct features have distinct indices.  For valid pieces and
    squares, if featureIndices returns the same white-perspective index, or
    the same black-perspective index, for two features, then the two
    features are the same piece on the same square. *)
Theorem featureIndices_injective (piece sq piece' sq' b w b' w' : Z) :
  valid_piece piece -> valid_square sq -> valid_piece piece' -> valid_square sq' ->
  featureIndices piece sq = Ok (b, w) -> featureIndices piece' sq' = Ok (b', w') ->
  w = w' \/ b = b' -> piece = piece' /\ sq = sq'.
Proof.
  intros Hp Hs Hp' Hs' E E' Heq.
  rewrite featureIndices_valid in E by done. injection E as <- <-.
  rewrite featureIndices_valid in E' by done. injection E' as <- <-.
  rewrite (piece_decompose _ Hp), (piece_decompose _ Hp').
  pose proof (getType_range _ Hp) as Ht. pose proof (getType_range _ Hp') as Ht'.
  unfold Globals.getType in *.
  pose proof (lxor_56_range _ Hs) as Hx. pose proof (lxor_56_range _ Hs') as Hx'.
  unfold valid_square in *.
  destruct Heq as [Heq|Heq].
  - destruct (colorBit_cases piece) as [Hc|Hc], (colorBit_cases piece') as [Hc'|Hc'];
      rewrite Hc, Hc' in *; lia.
  - assert (Z.lxor sq 56 = Z.lxor sq' 56 /\ colorBit piece = colorBit piece'
            /\ Z.land piece 7 = Z.land piece' 7) as (Hxx & -> & ->).
    { destruct (colorBit_cases piece) as [Hc|Hc], (colorBit_cases piece') as [Hc'|Hc'];
        rewrite Hc, Hc' in *; lia. }
    split; [done|].
    by rewrite <- (lxor_56_involutive sq), Hxx, lxor_56_involutive.
Qed.

Lemma featureIndices_injective_witness : white_pawn = white_pawn /\ 12 = 12.
Proof.
  apply (featureIndices_injective white_pawn 12 white_pawn 12 436 12 436 12).
  - exact white_pawn_valid.
  - exact square_valid_12.
  - exact white_pawn_valid.
  - exact square_valid_12.
  - reflexivity.
  - reflexivity.
  - left. reflexivity.
Defined.

(** X7: every row of the feature-weight matrix belongs to a feature.  Each
    index below 768 is the white-perspective index of a valid piece on a
    valid square, and the black-perspective index of another. *)
Theorem featureIndices_surjective (idx : Z) :
  0 <= idx < InputSize ->
  (exists piece sq b, valid_piece piece /\ valid_square sq /\
                      featureIndices piece sq = Ok (b, idx)) /\
  (exists piece sq w, valid_piece piece /\ valid_square sq /\
                      featureIndices piece sq = Ok (idx, w)).
Proof.
  unfold InputSize. intros Hidx.
  set (c := idx / 384). set (t := (idx mod 384) / 64). set (s := idx mod 64).
  assert (Hc : c = 0 \/ c = 1) by (subst c; Z.div_mod_to_equations; lia).
  assert (Ht : 0 <= t <= 5) by (subst t; Z.div_mod_to_equations; lia).
  assert (Hs : valid_square s) by (subst s; unfold valid_square; Z.div_mod_to_equations; lia).
  assert (Hi : idx = c * 384 + t * 64 + s) by (subst c t s; Z.div_mod_to_equations; lia).
  assert (Hc' : 1 - c = 0 \/ 1 - c = 1) by lia.
  split.
  - destruct (piece_of_fields (1 - c) t Hc' Ht) as (Hp & Hcb & Hty).
    exists (8 * (1 - c) + t), s. eexists. split; [done|]. split; [done|].
    rewrite featureIndices_valid by done. rewrite Hcb, Hty.
    apply f_equal, f_equal2; [reflexivity|lia].
  - destruct (piece_of_fields c t Hc Ht) as (Hp & Hcb & Hty).
    pose proof (lxor_56_range _ Hs) as Hx.
    exists (8 * c + t), (Z.lxor s 56). eexists. split; [done|]. split; [done|].
    rewrite featureIndices_valid by done. rewrite Hcb, Hty, lxor_56_involutive.
    apply f_equal, f_equal2; [lia|reflexivity].
Qed.

Lemma featureIndices_surjective_witness :
  (exists piece sq b, valid_piece piece /\ valid_square sq /\
                      featureIndices piece sq = Ok (b, 767)) /\
  (exists piece sq w, valid_piece piece /\ valid_square sq /\
                      featureIndices piece sq = Ok (767, w)).
Proof.
  apply (featureIndices_surjective 767). unfold InputSize. lia.
Defined.

(** ** Colour symmetry *)

Lemma mirror_piece_fields piece :
  valid_piece piece ->
  valid_piece (mirror_piece piece) /\
  colorBit (mirror_piece piece) = 1 - colorBit piece /\
  Z.land (mirror_piece piece) 7 = Z.land piece 7.
Proof.
  intros Hp. destruct (valid_piece_cases _ Hp) as (c & t & -> & Hc & Ht & _ & _).
  assert (Hn : exists n, (n <= 5)%nat /\ t = Z.of_nat n) by (exists (Z.to_nat t); lia).
  destruct Hn as (n & Hn & ->). clear Hp Ht.
  destruct Hc as [-> | ->];
    do 6 (destruct n as [|n];
          [split; [split; vm_compute; intuition congruence|split; reflexivity]|]);
    lia.
Qed.

Lemma mirror_idx piece sq :
  valid_piece piece -> valid_square sq ->
  blackIdx_of (mirror_piece piece) (Globals.flipIndex sq) = whiteIdx_of piece sq /\
  whiteIdx_of (mirror_piece piece) (Globals.flipIndex sq) = blackIdx_of piece sq.
Proof.
  intros Hp Hs. destruct (mirror_piece_fields _ Hp) as (_ & Hc & Ht).
  unfold blackIdx_of, whiteIdx_of, Globals.flipIndex.
  rewrite Hc, Ht, lxor_56_involutive. split; lia.
Qed.

Lemma flipIndex_valid sq : valid_square sq -> valid_square (Globals.flipIndex sq).
Proof. apply lxor_56_range. Qed.

(** X8: the two perspectives mirror each other.  For a valid piece on a
    valid square, the same piece in the other colour on the rank-mirrored
    square ([sq ^ 56]) is again valid and gets the two indices swapped. *)
Theorem featureIndices_mirror (piece sq : Z) :
  valid_piece piece -> valid_square sq ->
  exists b w,
    featureIndices piece sq = Ok (b, w) /\
    valid_piece (mirror_piece piece) /\ valid_square (Globals.flipIndex sq) /\
    featureIndices (mirror_piece piece) (Globals.flipIndex sq) = Ok (w, b).
Proof.
  intros Hp Hs. destruct (mirror_piece_fields _ Hp) as (Hp' & _ & _).
  pose proof (flipIndex_valid _ Hs) as Hs'.
  destruct (mirror_idx _ _ Hp Hs) as [Hb Hw].
  exists (blackIdx_of piece sq), (whiteIdx_of piece sq).
  rewrite !featureIndices_of by done. by rewrite Hb, Hw.
Qed.

Lemma featureIndices_mirror_witness :
  exists b w,
    featureIndices white_pawn 12 = Ok (b, w) /\
    valid_piece (mirror_piece white_pawn) /\ valid_square (Globals.flipIndex 12) /\
    featureIndices (mirror_piece white_pawn) (Globals.flipIndex 12) = Ok (w, b).
Proof.
  apply (featureIndices_mirror white_pawn 12).
  - exact white_pawn_valid.
  - exact square_valid_12.
Defined.

Lemma valid_update_mirror u : valid_update u -> valid_update (mirror_update u).
Proof.
  destruct u as [p s|p s|p s d]; cbn [valid_update mirror_update].
  - intros [Hp Hs]. split; [apply (mirror_piece_fields _ Hp)|by apply flipIndex_valid].
  - intros [Hp Hs]. split; [apply (mirror_piece_fields _ Hp)|by apply flipIndex_valid].
  - intros (Hp & Hs & Hd).
    split; [apply (mirror_piece_fields _ Hp)|split; by apply flipIndex_valid].
Qed.

Lemma update_delta_mirror W u j :
  valid_update u ->
  update_delta W blackIdx_of (mirror_update u) j = update_delta W whiteIdx_of u j /\
  update_delta W whiteIdx_of (mirror_update u) j = update_delta W blackIdx_of u j.
Proof.
  destruct u as [p s|p s|p s d]; cbn [valid_update mirror_update update_delta].
  - intros [Hp Hs]. destruct (mirror_idx _ _ Hp Hs) as [-> ->]. done.
  - intros [Hp Hs]. destruct (mirror_idx _ _ Hp Hs) as [-> ->]. done.
  - intros (Hp & Hs & Hd).
    destruct (mirror_idx _ _ Hp Hs) as [-> ->].
    destruct (mirror_idx _ _ Hp Hd) as [-> ->]. done.
Qed.

Lemma net_delta_mirror W us j :
  Forall valid_update us ->
  net_delta W blackIdx_of (map mirror_update us) j = net_delta W whiteIdx_of us j /\
  net_delta W whiteIdx_of (map mirror_update us) j = net_delta W blackIdx_of us j.
Proof.
  induction 1 as [|u us Hu _ [IHb IHw]]; [done|].
  cbn [map]. rewrite !net_delta_cons, IHb, IHw.
  destruct (update_delta_mirror W u j Hu) as [-> ->]. done.
Qed.

Lemma shift_acc_mirror g_nnue us a :
  Forall valid_update us ->
  shift_acc g_nnue (map mirror_update us) (swap_acc a)
  = swap_acc (shift_acc g_nnue us a).
Proof.
  intros Hus. unfold shift_acc, swap_acc. cbn [black white].
  f_equal; apply shift_vector_ext; intros j;
    apply (net_delta_mirror (featureWeights g_nnue) us j Hus).
Qed.

Lemma evaluate_on_swap g_nnue a :
  evaluate_on g_nnue (swap_acc a) 1 = evaluate_on g_nnue a 0 /\
  evaluate_on g_nnue (swap_acc a) 0 = evaluate_on g_nnue a 1.
Proof. done. Qed.

Lemma is_Ok_evaluate_on g_nnue a stm :
  Network_wf g_nnue -> Accumulator_wf a -> exists score, evaluate_on g_nnue a stm = Ok score.
Proof. intros Hnet Ha. rewrite evaluate_on_score by done. eauto. Qed.

(** X9: the evaluation is colour-symmetric.  Build a position from reset()
    by a run of valid feature updates, and build its mirror image (every
    piece in the other colour on the rank-mirrored square) the same way:
    both runs succeed, and the score of the first position for black to
    move is the score of the second for white to move, and the other way
    round. *)
Theorem evaluate_colour_symmetric (g_nnue : Network) (st0 : NnueState) (us : list Update) :
  Network_wf g_nnue -> Forall valid_update us ->
  exists st st' score0 score1,
    (s ← reset g_nnue st0; run_updates g_nnue us s) = Ok st /\
    (s ← reset g_nnue st0; run_updates g_nnue (map mirror_update us) s) = Ok st' /\
    evaluate g_nnue st 0 = Ok score0 /\ evaluate g_nnue st' 1 = Ok score0 /\
    evaluate g_nnue st 1 = Ok score1 /\ evaluate g_nnue st' 0 = Ok score1.
Proof.
  intros Hnet Hus. rewrite reset_bias by apply (fb_size _ Hnet).
  cbn [mbind outcome_bind].
  set (a := {| black := featureBiases g_nnue; white := featureBiases g_nnue |}).
  assert (Ha : Accumulator_wf a) by apply (proj1 (with_top_wf [] _) (reset_wf _ Hnet)).
  assert (Hus' : Forall valid_update (map mirror_update us)).
  { apply Forall_fmap. eapply List.Forall_impl; [|exact Hus]. apply valid_update_mirror. }
  rewrite !run_updates_top by done.
  change a with (swap_acc a) at 2. rewrite shift_acc_mirror by done.
  pose proof (shift_acc_wf g_nnue us a Ha) as Hwf.
  destruct (is_Ok_evaluate_on g_nnue _ 0 Hnet Hwf) as [s0 E0].
  destruct (is_Ok_evaluate_on g_nnue _ 1 Hnet Hwf) as [s1 E1].
  eexists _, _. exists s0, s1. split; [done|]. split; [done|].
  rewrite !evaluate_top.
  destruct (evaluate_on_swap g_nnue (shift_acc g_nnue us a)) as [-> ->].
  done.
Qed.

Lemma evaluate_colour_symmetric_witness :
  exists st st' score0 score1,
    (s ← reset sample_net NnueState_new; run_updates sample_net sample_updates s) = Ok st /\
    (s ← reset sample_net NnueState_new;
     run_updates sample_net (map mirror_update sample_updates) s) = Ok st' /\
    evaluate sample_net st 0 = Ok score0 /\ evaluate sample_net st' 1 = Ok score0 /\
    evaluate sample_net st 1 = Ok score1 /\ evaluate sample_net st' 0 = Ok score1.
Proof.
  apply (evaluate_colour_symmetric sample_net NnueState_new sample_updates).
  - exact sample_net_wf.
  - exact sample_updates_valid.
Defined.

(** ** Clipping and the range of the score *)

Lemma clamp_idem v : clamp (clamp v 0 255) 0 255 = clamp v 0 255.
Proof.
  unfold clamp. destruct (Z.ltb_spec v 0); [done|].
  destruct (Z.ltb_spec 255 v); [done|].
  destruct (Z.ltb_spec v 0); [lia|]. destruct (Z.ltb_spec 255 v); [lia|done].
Qed.

Lemma crelu_idem v : crelu (crelu v) = crelu v.
Proof.
  unfold crelu. rewrite <- list_fmap_compose. apply list_fmap_ext.
  intros j x _. apply clamp_idem.
Qed.

Lemma crelu_wf n v : size v = n -> vector_wf n (crelu v).
Proof.
  intros Hs. split.
  - unfold crelu, size in *. by rewrite length_fmap.
  - eapply List.Forall_impl; [|apply crelu_range]. intros x Hx. cbn in Hx.
    unfold is_int16. lia.
Qed.

Lemma clip_acc_wf a : Accumulator_wf a -> Accumulator_wf (clip_acc a).
Proof.
  intros [Hb Hw _ _]. apply Accumulator_wf_vectors.
  split; cbn [clip_acc black white]; by apply crelu_wf.
Qed.

(** X10: the score sees the hidden values only through the clipping.  On a
    well-formed state, replacing every hidden value of the current
    accumulator by its clamp to [0, 255] (so every negative value by 0)
    leaves evaluate(stm) unchanged. *)
Theorem evaluate_clipped (g_nnue : Network) (v : list Accumulator) (a : Accumulator)
  (stm : Z) :
  Network_wf g_nnue -> Accumulator_wf a ->
  exists score,
    evaluate g_nnue (with_top v a) stm = Ok score /\
    evaluate g_nnue (with_top v (clip_acc a)) stm = Ok score.
Proof.
  intros Hnet Ha. rewrite !evaluate_top.
  rewrite !evaluate_on_score by (done || by apply clip_acc_wf).
  eexists. split; [done|]. cbn [clip_acc black white].
  unfold spec_score, output_sum. by rewrite !crelu_idem.
Qed.

Lemma evaluate_clipped_witness :
  exists score,
    evaluate sample_net (with_top [] sample_acc) 0 = Ok score /\
    evaluate sample_net (with_top [] (clip_acc sample_acc)) 0 = Ok score.
Proof.
  apply (evaluate_clipped sample_net [] sample_acc 0).
  - exact sample_net_wf.
  - exact (proj2 (proj1 (with_top_wf [] sample_acc) sample_state_wf)).
Defined.

Lemma abs_sum_cons w ws : abs_sum (w :: ws) = Z.abs w + abs_sum ws.
Proof. reflexivity. Qed.

Lemma abs_sum_nonneg ws : 0 <= abs_sum ws.
Proof. induction ws as [|w ws IH]; [done|]. rewrite abs_sum_cons. lia. Qed.

Lemma abs_sum_app ws1 ws2 : abs_sum (ws1 ++ ws2) = abs_sum ws1 + abs_sum ws2.
Proof.
  induction ws1 as [|w ws1 IH]; [done|].
  cbn [app]. rewrite !abs_sum_cons, IH. lia.
Qed.

Lemma dot_cons x xs y ys : dot (x :: xs) (y :: ys) = x * y + dot xs ys.
Proof. reflexivity. Qed.

Lemma dot_crelu_bound us ws : Z.abs (dot (crelu us) ws) <= 255 * abs_sum ws.
Proof.
  revert ws. induction us as [|u us IH]; intros [|w ws].
  - done.
  - pose proof (abs_sum_nonneg (w :: ws)).
    change (dot (crelu []) (w :: ws)) with 0. lia.
  - done.
  - change (crelu (u :: us)) with (clamp u 0 255 :: crelu us).
    rewrite dot_cons, abs_sum_cons. specialize (IH ws).
    pose proof (clamp_range u 0 255 ltac:(lia)) as Hc.
    assert (Z.abs (clamp u 0 255 * w) <= 255 * Z.abs w).
    { rewrite Z.abs_mul, (Z.abs_eq (clamp u 0 255)) by lia.
      apply Z.mul_le_mono_nonneg_r; lia. }
    lia.
Qed.

Lemma output_sum_bound g_nnue us them :
  Z.abs (output_sum g_nnue us them) <= output_bound g_nnue.
Proof.
  unfold output_sum, output_bound.
  rewrite <- (take_drop (Z.to_nat Layer1Size) (outputWeights g_nnue)) at 3.
  rewrite abs_sum_app.
  pose proof (dot_crelu_bound us (take (Z.to_nat Layer1Size) (outputWeights g_nnue))).
  pose proof (dot_crelu_bound them (drop (Z.to_nat Layer1Size) (outputWeights g_nnue))).
  lia.
Qed.

(** X11: a bound on the output weights rules out 32-bit overflow.  If
    255 * (sum of the magnitudes of the output weights) + |output bias| is
    at most 5368709, then on every well-formed state evaluate(stm) returns
    the exact quotient, truncated towards zero, of
    (dot products + bias) * Scale by Q, and its magnitude is at most
    131586. *)
Theorem evaluate_exact (g_nnue : Network) (st : NnueState) (stm : Z) :
  Network_wf g_nnue -> NnueState_wf st -> output_bound g_nnue <= 5368709 ->
  exists a us them,
    current st = Ok a /\
    (us, them) = (if stm =? 0 then (black a, white a) else (white a, black a)) /\
    evaluate g_nnue st stm = Ok (Z.quot (output_sum g_nnue us them * Scale) Q) /\
    Z.abs (Z.quot (output_sum g_nnue us them * Scale) Q) <= 131586.
Proof.
  intros Hnet Hst Hbound. destruct (curr_is_back _ Hst) as (v & a & ->).
  apply with_top_wf in Hst. destruct Hst as [_ Ha].
  exists a, (if stm =? 0 then black a else white a),
    (if stm =? 0 then white a else black a).
  rewrite current_top, evaluate_top, evaluate_on_score by done.
  split; [done|]. split; [by destruct (stm =? 0)|].
  assert (Hfit : forall us them, is_int32 (output_sum g_nnue us them * Scale)).
  { intros us them. pose proof (output_sum_bound g_nnue us them).
    unfold is_int32, Scale. change (2 ^ 31) with 2147483648. lia. }
  split.
  - unfold spec_score. rewrite !int32_id by apply Hfit. by destruct (stm =? 0).
  - pose proof (Hfit (if stm =? 0 then black a else white a)
                     (if stm =? 0 then white a else black a)) as H.
    set (s := output_sum g_nnue _ _) in *. clearbody s.
    unfold is_int32, Scale, Q in *. change (2 ^ 31) with 2147483648 in H.
    Z.to_euclidean_division_equations. lia.
Qed.

Lemma abs_sum_replicate n w : abs_sum (replicate n w) = Z.of_nat n * Z.abs w.
Proof.
  induction n as [|n IH]; [done|].
  cbn [replicate]. rewrite abs_sum_cons, IH. lia.
Qed.

Lemma sample_net_bound : output_bound sample_net <= 5368709.
Proof.
  unfold output_bound, sample_net. cbn [outputWeights outputBias].
  rewrite abs_sum_replicate. unfold Layer1Size. lia.
Qed.

Lemma evaluate_exact_witness :
  exists a us them,
    current sample_state = Ok a /\
    (us, them) = (if 1 =? 0 then (black a, white a) else (white a, black a)) /\
    evaluate sample_net sample_state 1
    = Ok (Z.quot (output_sum sample_net us them * Scale) Q) /\
    Z.abs (Z.quot (output_sum sample_net us them * Scale) Q) <= 131586.
Proof.
  apply (evaluate_exact sample_net sample_state 1).
  - exact sample_net_wf.
  - exact sample_state_wf.
  - exact sample_net_bound.
Defined.

(** ** Copies and the invariant *)

(** X12: copying an NnueState.  The copy constructor, and assignment from
    another object, take the whole vector and point [m_curr] at the last
    element of the copy, whatever [m_curr] of the source was; so the copy
    of a well-formed state is that state.  Copying a state whose vector is
    empty is undefined ([back()] of an empty vector). *)
Theorem copy_reestablishes_current (other this : NnueState) :
  (forall v a, m_accumulatorStack other = v ++ [a] ->
     NnueState_copy other = Ok (with_top v a) /\
     NnueState_assign this other false = Ok (with_top v a)) /\
  (NnueState_wf other ->
     NnueState_copy other = Ok other /\ NnueState_assign this other false = Ok other) /\
  (m_accumulatorStack other = [] ->
     NnueState_copy other = Undefined /\ NnueState_assign this other false = Undefined).
Proof.
  assert (Hsnoc : forall v a, m_accumulatorStack other = v ++ [a] ->
     NnueState_copy other = Ok (with_top v a) /\
     NnueState_assign this other false = Ok (with_top v a)).
  { intros v a E. unfold NnueState_copy, NnueState_assign.
    rewrite E, back_ptr_snoc. done. }
  split; [exact Hsnoc|]. split.
  - intros Hwf. destruct (curr_is_back _ Hwf) as (v & a & E).
    destruct (Hsnoc v a) as [-> ->]; [by rewrite E|]. by rewrite E.
  - intros E. unfold NnueState_copy, NnueState_assign. by rewrite E.
Qed.

Lemma copy_reestablishes_current_witness :
  NnueState_copy sample_state = Ok sample_state /\
  NnueState_assign NnueState_new sample_state false = Ok sample_state.
Proof.
  apply (proj1 (proj2 (copy_reestablishes_current sample_state NnueState_new))).
  exact sample_state_wf.
Defined.

(** X13: the invariant of the stack.  Whatever sequence of successful
    reset, push, pop and feature-update calls (with any arguments) produced
    a state, its vector is not empty, [m_curr] points at the last element,
    and every accumulator in it has two vectors of 768 values in the
    [int16_t] range. *)
Theorem reachable_invariant (g_nnue : Network) (st : NnueState) :
  Network_wf g_nnue -> reachable g_nnue st ->
  exists v a,
    m_accumulatorStack st = v ++ [a] /\ m_curr st = Some (length v) /\
    (1 <= depth st)%nat /\ current st = Ok a /\
    Forall Accumulator_wf (m_accumulatorStack st).
Proof.
  intros Hnet Hr. pose proof (reachable_wf _ _ Hnet Hr) as Hwf.
  destruct (curr_is_back _ Hwf) as (v & a & ->).
  exists v, a. rewrite current_top, depth_top.
  split; [done|]. split; [done|]. split; [lia|]. split; [done|].
  apply (stack_wf _ Hwf).
Qed.

Lemma reachable_invariant_witness :
  exists v a,
    m_accumulatorStack sample_state = v ++ [a] /\ m_curr sample_state = Some (length v) /\
    (1 <= depth sample_state)%nat /\ current sample_state = Ok a /\
    Forall Accumulator_wf (m_accumulatorStack sample_state).
Proof.
  apply (reachable_invariant sample_net sample_state).
  - exact sample_net_wf.
  - exact sample_state_reachable.
Defined.

(** ** globals.cpp: piece identities, squares and bitboards *)

(** X15: a piece identity decodes to its fields.  For a type field below 8
    and any colour field, getType and getColor of [color * 8 + type] give
    back the type and the colour; every integer is [getColor * 8 + getType]
    of itself; and adding [White] (8) to a type gives colour 1, adding
    [Black] (0) colour 0. *)
Theorem piece_fields_roundtrip (color type : Z) :
  0 <= type < 8 ->
  Globals.getType (color * 8 + type) = type /\
  Globals.getColor (color * 8 + type) = color /\
  (forall value, value = Globals.getColor value * 8 + Globals.getType value) /\
  Globals.getColor (Globals.White + type) = 1 /\
  Globals.getColor (Globals.Black + type) = 0.
Proof.
  intros Ht.
  assert (Hty : forall v, Globals.getType v = v mod 8).
  { intros v. unfold Globals.getType. change 7 with (Z.ones 3).
    by rewrite Z.land_ones by lia. }
  assert (Hco : forall v, Globals.getColor v = v / 8).
  { intros v. unfold Globals.getColor. by rewrite Z.shiftr_div_pow2 by lia. }
  rewrite !Hty, !Hco. unfold Globals.White, Globals.Black.
  split; [Z.div_mod_to_equations; lia|].
  split; [Z.div_mod_to_equations; lia|].
  split; [intros v; rewrite Hty, Hco; Z.div_mod_to_equations; lia|].
  split; Z.div_mod_to_equations; lia.
Qed.

Lemma piece_fields_roundtrip_witness :
  Globals.getType (1 * 8 + Globals.King) = Globals.King /\
  Globals.getColor (1 * 8 + Globals.King) = 1 /\
  (forall value, value = Globals.getColor value * 8 + Globals.getType value) /\
  Globals.getColor (Globals.White + Globals.King) = 1 /\
  Globals.getColor (Globals.Black + Globals.King) = 0.
Proof.
  apply (piece_fields_roundtrip 1 Globals.King). unfold Globals.King. lia.
Defined.

Lemma flipIndex_rank_file sq :
  valid_square sq ->
  Globals.flipIndex sq mod 8 = sq mod 8 /\ Globals.flipIndex sq / 8 = 7 - sq / 8.
Proof.
  intros Hsq.
  assert (Hn : exists n, (n < 64)%nat /\ sq = Z.of_nat n)
    by (exists (Z.to_nat sq); unfold valid_square in Hsq; lia).
  destruct Hn as (n & Hn & ->).
  do 64 (destruct n as [|n]; [split; reflexivity|]).
  lia.
Qed.

(** X16: flipIndex mirrors the board vertically.  It is its own inverse on
    every integer; on a square 0..63 it stays on the board, keeps the file
    ([sq mod 8]) and sends rank [sq / 8] to rank [7 - sq / 8]. *)
Theorem flipIndex_mirrors_rank (sq : Z) :
  Globals.flipIndex (Globals.flipIndex sq) = sq /\
  (valid_square sq ->
     valid_square (Globals.flipIndex sq) /\
     Globals.flipIndex sq mod 8 = sq mod 8 /\
     Globals.flipIndex sq / 8 = 7 - sq / 8).
Proof.
  split; [apply lxor_56_involutive|].
  intros Hsq. split; [by apply flipIndex_valid|by apply flipIndex_rank_file].
Qed.

Lemma flipIndex_mirrors_rank_witness :
  valid_square (Globals.flipIndex 12) /\
  Globals.flipIndex 12 mod 8 = 12 mod 8 /\
  Globals.flipIndex 12 / 8 = 7 - 12 / 8.
Proof.
  apply (proj2 (flipIndex_mirrors_rank 12)). unfold valid_square. lia.
Defined.

Lemma small_nat_cases (P : nat -> Prop) (b : nat) (check : nat -> bool) :
  (forall n, check n = true -> P n) ->
  forallb check (seq 0 b) = true ->
  forall n, (n < b)%nat -> P n.
Proof.
  intros Hc Hall n Hn. apply Hc.
  rewrite forallb_forall in Hall. apply Hall, in_seq. lia.
Qed.

Lemma mask_bits_checked (m : Z) (f : Z -> bool) :
  forallb (fun n => Bool.eqb (Z.testbit m (Z.of_nat n)) (f (Z.of_nat n))) (seq 0 64) = true ->
  forall sq, valid_square sq -> Z.testbit m sq = f sq.
Proof.
  intros Hall sq Hsq. unfold valid_square in Hsq.
  rewrite <- (Z2Nat.id sq) by lia.
  apply (small_nat_cases (fun n => Z.testbit m (Z.of_nat n) = f (Z.of_nat n)) 64
           (fun n => Bool.eqb (Z.testbit m (Z.of_nat n)) (f (Z.of_nat n)))).
  - intros n. apply Bool.eqb_prop.
  - exact Hall.
  - lia.
Qed.

(** X17: file and rank masks.  For a file 0..7, getFileMask is a 64-bit
    board whose set squares are exactly those with [sq mod 8 = file]; for a
    rank 0..7, getRankMask is the board of the squares with
    [sq / 8 = rank].  getFileMask of a negative file or of a file of 64 or
    more, and getRankMask of a rank in [8, 2^28) or in [-2^28, 0) (where
    [8 * rank] is still an [int]), shift by an amount outside 0..63, which is
    undefined. *)
Theorem file_rank_masks (k : Z) :
  (0 <= k < 8 ->
     exists fm rm,
       getFileMask k = Ok fm /\ getRankMask k = Ok rm /\
       0 <= fm < 2 ^ 64 /\ 0 <= rm < 2 ^ 64 /\
       forall sq, valid_square sq ->
         Z.testbit fm sq = (sq mod 8 =? k) /\ Z.testbit rm sq = (sq / 8 =? k)) /\
  (k < 0 \/ 64 <= k -> getFileMask k = Undefined) /\
  (- 2 ^ 28 <= k < 0 \/ 8 <= k < 2 ^ 28 -> getRankMask k = Undefined).
Proof.
  split; [|split].
  - intros Hk.
    assert (Hn : exists n, (n < 8)%nat /\ k = Z.of_nat n) by (exists (Z.to_nat k); lia).
    destruct Hn as (n & Hn & ->).
    do 8 (destruct n as [|n];
          [eexists _, _; split; [reflexivity|]; split; [reflexivity|];
           split; [split; [vm_compute; congruence|reflexivity]|];
           split; [split; [vm_compute; congruence|reflexivity]|];
           intros sq Hsq; split;
           [apply (mask_bits_checked _ (fun s => s mod 8 =? _)); [vm_compute; reflexivity|exact Hsq]
           |apply (mask_bits_checked _ (fun s => s / 8 =? _)); [vm_compute; reflexivity|exact Hsq]]|]).
    lia.
  - intros Hk. unfold getFileMask, shl64.
    destruct (Z.leb_spec 0 k); destruct (Z.ltb_spec k 64); try lia; reflexivity.
  - intros Hk. unfold getRankMask, shl64.
    assert (E : int32 (8 * k) = 8 * k).
    { apply int32_id. unfold is_int32. change (2 ^ 28) with 268435456 in Hk.
      change (2 ^ 31) with 2147483648. lia. }
    rewrite E.
    destruct (Z.leb_spec 0 (8 * k)); destruct (Z.ltb_spec (8 * k) 64); try lia; reflexivity.
Qed.

Lemma file_rank_masks_witness :
  exists fm rm,
    getFileMask 3 = Ok fm /\ getRankMask 3 = Ok rm /\
    0 <= fm < 2 ^ 64 /\ 0 <= rm < 2 ^ 64 /\
    forall sq, valid_square sq ->
      Z.testbit fm sq = (sq mod 8 =? 3) /\ Z.testbit rm sq = (sq / 8 =? 3).
Proof.
  apply (proj1 (file_rank_masks 3)). lia.
Defined.

(** ** popLSB *)

Lemma shifted_sum_bits x r k i :
  0 <= k -> 0 <= r < 2 ^ k -> 0 <= i ->
  Z.testbit (x * 2 ^ k + r) i = if i <? k then Z.testbit r i else Z.testbit x (i - k).
Proof.
  intros Hk Hr Hi. assert (0 < 2 ^ k) by (apply Z.pow_pos_nonneg; lia).
  destruct (Z.ltb_spec i k).
  - rewrite <- (Z.mod_pow2_bits_low (x * 2 ^ k + r) k i) by lia.
    rewrite Z.add_comm, Z.mod_add, Z.mod_small by lia. done.
  - replace i with ((i - k) + k) at 1 by lia.
    rewrite <- Z.div_pow2_bits by lia.
    rewrite Z.div_add_l, Z.div_small by lia. f_equal. lia.
Qed.

Lemma countr_zero_pos_factor p :
  exists q, 0 <= q /\ 0 <= countr_zero_pos p /\
            Z.pos p = (2 * q + 1) * 2 ^ countr_zero_pos p.
Proof.
  induction p as [p _|p (q & Hq & Hk & E)|].
  - exists (Z.pos p). cbn [countr_zero_pos]. rewrite Pos2Z.inj_xI. lia.
  - exists q. cbn [countr_zero_pos]. split; [done|]. split; [lia|].
    rewrite Pos2Z.inj_xO, E.
    replace (1 + countr_zero_pos p) with (Z.succ (countr_zero_pos p)) by lia.
    rewrite Z.pow_succ_r by done. lia.
  - exists 0. cbn. lia.
Qed.

Section lowest_bit.
Variables (q k : Z).
Hypothesis Hq : 0 <= q.
Hypothesis Hk : 0 <= k.

Let b := (2 * q + 1) * 2 ^ k.

Lemma lowest_bit_bits i :
  0 <= i ->
  Z.testbit b i = if i <? k then false else if i =? k then true
                  else Z.testbit q (i - k - 1).
Proof.
  intros Hi. subst b.
  assert (0 < 2 ^ k) by (apply Z.pow_pos_nonneg; lia).
  rewrite <- (Z.add_0_r (_ * 2 ^ k)), shifted_sum_bits by lia.
  destruct (Z.ltb_spec i k); [apply Z.testbit_0_l|].
  destruct (Z.eqb_spec i k) as [->|Hne].
  - rewrite Z.sub_diag. apply Z.testbit_odd_0.
  - replace (i - k) with (Z.succ (i - k - 1)) by lia.
    rewrite Z.testbit_odd_succ by lia. f_equal. lia.
Qed.

Lemma pred_lowest_bit_bits i :
  0 <= i ->
  Z.testbit (b - 1) i = if i <? k then true else if i =? k then false
                        else Z.testbit q (i - k - 1).
Proof.
  intros Hi. subst b.
  assert (0 < 2 ^ k) by (apply Z.pow_pos_nonneg; lia).
  replace ((2 * q + 1) * 2 ^ k - 1) with ((2 * q) * 2 ^ k + Z.ones k)
    by (rewrite Z.ones_equiv; lia).
  rewrite shifted_sum_bits by (rewrite ?Z.ones_equiv; lia).
  destruct (Z.ltb_spec i k); [apply Z.ones_spec_low; lia|].
  destruct (Z.eqb_spec i k) as [->|Hne].
  - rewrite Z.sub_diag. apply Z.testbit_even_0.
  - replace (i - k) with (Z.succ (i - k - 1)) by lia.
    rewrite Z.testbit_even_succ by lia. f_equal. lia.
Qed.

Lemma clear_lowest_bit_bits i :
  Z.testbit (Z.land b (b - 1)) i = Z.testbit b i && negb (i =? k).
Proof.
  destruct (Z.lt_ge_cases i 0) as [Hneg|Hi].
  - by rewrite !Z.testbit_neg_r by done.
  - rewrite Z.land_spec, lowest_bit_bits, pred_lowest_bit_bits by done.
    destruct (Z.ltb_spec i k); [done|].
    destruct (Z.eqb_spec i k); [done|]. cbn. by rewrite andb_diag, andb_true_r.
Qed.

Lemma clear_lowest_bit : Z.land b (b - 1) = b - 2 ^ k.
Proof.
  apply Z.bits_inj'. intros i Hi.
  rewrite clear_lowest_bit_bits, lowest_bit_bits by done.
  subst b. assert (0 < 2 ^ k) by (apply Z.pow_pos_nonneg; lia).
  replace ((2 * q + 1) * 2 ^ k - 2 ^ k) with ((2 * q) * 2 ^ k + 0) by lia.
  rewrite shifted_sum_bits by lia.
  destruct (Z.ltb_spec i k); [by rewrite Z.testbit_0_l|].
  destruct (Z.eqb_spec i k) as [->|Hne].
  - rewrite Z.sub_diag. by rewrite Z.testbit_even_0.
  - replace (i - k) with (Z.succ (i - k - 1)) by lia.
    rewrite Z.testbit_even_succ by lia. cbn. rewrite andb_true_r. f_equal. lia.
Qed.
End lowest_bit.

(** X18: popLSB takes the lowest set bit off a bitboard.  For a non-empty
    64-bit board it returns the index of the lowest set bit, below 64, with
    no set bit below it, and leaves the board with exactly that bit cleared
    (the board minus [2 ^ index]).  On the empty board it returns 64 and
    leaves the board empty. *)
Theorem popLSB_lowest_bit (bitboard : Z) :
  popLSB 0 = (64, 0) /\
  (0 < bitboard < 2 ^ 64 ->
     exists lsb bitboard',
       popLSB bitboard = (lsb, bitboard') /\
       0 <= lsb < 64 /\ Z.testbit bitboard lsb = true /\
       (forall j, 0 <= j < lsb -> Z.testbit bitboard j = false) /\
       bitboard' = bitboard - 2 ^ lsb /\ 0 <= bitboard' < bitboard /\
       (forall i, Z.testbit bitboard' i = Z.testbit bitboard i && negb (i =? lsb))).
Proof.
  split; [reflexivity|]. intros Hb.
  destruct bitboard as [|p|p]; [lia| |lia].
  destruct (countr_zero_pos_factor p) as (q & Hq & Hk & E).
  set (k := countr_zero_pos p) in *.
  assert (Hpow : 0 < 2 ^ k) by (apply Z.pow_pos_nonneg; lia).
  assert (Hk64 : k < 64).
  { apply (Z.pow_lt_mono_r_iff 2); [lia|lia|]. nia. }
  exists k, (Z.pos p - 2 ^ k). unfold popLSB. cbn [countr_zero]. fold k.
  assert (Eu : uint64 (Z.pos p - 1) = Z.pos p - 1).
  { unfold uint64. apply Z.mod_small. lia. }
  rewrite Eu, E, clear_lowest_bit by done.
  split; [done|]. split; [lia|].
  split; [rewrite lowest_bit_bits by lia;
          destruct (Z.ltb_spec k k); [lia|]; by rewrite Z.eqb_refl|].
  split; [intros j Hj; rewrite lowest_bit_bits by lia;
          destruct (Z.ltb_spec j k); [done|lia]|].
  split; [done|]. split; [nia|].
  intros i. rewrite <- clear_lowest_bit by done. by apply clear_lowest_bit_bits.
Qed.

Lemma popLSB_lowest_bit_witness :
  exists lsb bitboard',
    popLSB 40 = (lsb, bitboard') /\
    0 <= lsb < 64 /\ Z.testbit 40 lsb = true /\
    (forall j, 0 <= j < lsb -> Z.testbit 40 j = false) /\
    bitboard' = 40 - 2 ^ lsb /\ 0 <= bitboard' < 40 /\
    (forall i, Z.testbit bitboard' i = Z.testbit 40 i && negb (i =? lsb)).
Proof.
  apply (proj2 (popLSB_lowest_bit 40)). split; [lia|reflexivity].
Defined.

(** ** split *)

Lemma read_segment_spec stream sep seg rest :
  read_segment stream sep = (seg, rest) ->
  (sep ∉ seg) /\ (stream = seg ++ sep :: rest \/ (stream = seg /\ rest = [])).
Proof.
  revert seg rest. induction stream as [|c stream IH]; intros seg rest E; cbn in E.
  - injection E as <- <-. split; [apply not_elem_of_nil|by right].
  - destruct (Ascii.eqb_spec c sep) as [->|Hne].
    + injection E as <- <-. split; [apply not_elem_of_nil|by left].
    + destruct (read_segment stream sep) as [seg' rest'].
      injection E as <- <-. destruct (IH seg' rest' eq_refl) as [Hn Hs].
      split.
      * apply not_elem_of_cons. split; [congruence|done].
      * destruct Hs as [->|[-> ->]]; [by left|by right].
Qed.

Lemma read_segment_shorter c stream sep :
  (length (read_segment (c :: stream) sep).2 <= length stream)%nat.
Proof.
  revert c. induction stream as [|d stream IH]; intros c; cbn.
  - destruct (Ascii.eqb c sep); cbn; lia.
  - destruct (Ascii.eqb c sep); [cbn; lia|].
    specialize (IH d). cbn in IH.
    destruct (Ascii.eqb d sep); [cbn in *; lia|].
    destruct (read_segment stream sep) as [seg rest]. cbn in *. lia.
Qed.

Lemma terminated_nil sep : terminated [] sep = [].
Proof. reflexivity. Qed.

Lemma terminated_app_sep seg sep rest :
  terminated (seg ++ sep :: rest) sep = seg ++ sep :: terminated rest sep.
Proof.
  unfold terminated. rewrite last_app_cons, last_cons.
  destruct (list.last rest) as [c|] eqn:E.
  - destruct (Ascii.eqb c sep); [done|].
    by rewrite <- app_assoc.
  - apply last_None in E as ->. by rewrite Ascii.eqb_refl.
Qed.

Lemma terminated_no_sep c seg sep :
  sep ∉ c :: seg -> terminated (c :: seg) sep = (c :: seg) ++ [sep].
Proof.
  intros Hn. unfold terminated.
  destruct (list.last (c :: seg)) as [x|] eqn:E.
  - destruct (Ascii.eqb_spec x sep) as [->|_]; [|done].
    apply last_Some_elem_of in E. done.
  - by apply last_None in E.
Qed.

Lemma join_terminated_cons sep seg segs :
  join_terminated sep (seg :: segs) = (seg ++ [sep]) ++ join_terminated sep segs.
Proof. reflexivity. Qed.

Lemma split_loop_spec sep :
  forall fuel stream segs0,
    (length stream < fuel)%nat ->
    exists segs,
      split_loop fuel stream sep segs0 = Some (segs0 ++ segs) /\
      Forall (fun seg => sep ∉ seg) segs /\
      join_terminated sep segs = terminated stream sep.
Proof.
  induction fuel as [|fuel IH]; intros stream segs0 Hfuel; [lia|].
  destruct stream as [|c stream].
  - exists []. cbn. by rewrite app_nil_r.
  - cbn [split_loop getline].
    pose proof (read_segment_shorter c stream sep) as Hlen.
    destruct (read_segment (c :: stream) sep) as [seg rest] eqn:E.
    destruct (read_segment_spec _ _ _ _ E) as [Hn Hs].
    cbn [snd] in Hlen. cbn [length] in Hfuel.
    destruct (IH rest (segs0 ++ [seg])) as (segs & Hrun & Hall & Hjoin); [lia|].
    exists (seg :: segs). rewrite Hrun, <- app_assoc. split; [done|].
    split; [by constructor|].
    rewrite join_terminated_cons, Hjoin.
    destruct Hs as [->|[Es ->]].
    + rewrite terminated_app_sep. by rewrite <- app_assoc.
    + rewrite <- Es in Hn |- *. rewrite terminated_nil, app_nil_r.
      by rewrite terminated_no_sep.
Qed.

Lemma sep_free_prefix_unique (sep : ascii) (a b x y : list ascii) :
  sep ∉ a -> sep ∉ b -> a ++ sep :: x = b ++ sep :: y -> a = b /\ x = y.
Proof.
  revert b. induction a as [|c a IH]; intros [|d b] Ha Hb E; cbn in E.
  - by injection E as ->.
  - injection E as <- _. apply not_elem_of_cons in Hb. by destruct Hb.
  - injection E as -> _. apply not_elem_of_cons in Ha. by destruct Ha.
  - injection E as -> E. apply not_elem_of_cons in Ha, Hb.
    destruct (IH b) as [-> ->]; tauto.
Qed.

Lemma join_terminated_unique sep segs1 segs2 :
  Forall (fun seg => sep ∉ seg) segs1 -> Forall (fun seg => sep ∉ seg) segs2 ->
  join_terminated sep segs1 = join_terminated sep segs2 -> segs1 = segs2.
Proof.
  intros H1. revert segs2.
  induction H1 as [|seg1 segs1 Hn1 _ IH]; intros segs2 H2 E.
  - destruct H2 as [|seg2 segs2 _ _]; [done|].
    rewrite join_terminated_cons in E. by destruct seg2.
  - destruct H2 as [|seg2 segs2 Hn2 H2].
    + rewrite join_terminated_cons in E. by destruct seg1.
    + rewrite !join_terminated_cons, <- !app_assoc in E. cbn [app] in E.
      destruct (sep_free_prefix_unique _ _ _ _ _ Hn1 Hn2 E) as [-> E'].
      f_equal. by apply IH.
Qed.

Lemma split_characterised (string : list ascii) (seperator : ascii) :
  exists segs,
    split string seperator = Some segs /\
    Forall (fun seg => seperator ∉ seg) segs /\
    join_terminated seperator segs = terminated string seperator.
Proof.
  unfold split.
  destruct (split_loop_spec seperator (S (length string)) string [])
    as (segs & Hrun & Hall & Hjoin); [lia|].
  by exists segs.
Qed.

(** X19: split cuts a string at the separators and loses nothing.  It
    always returns (the loop ends within [length + 1] iterations, and more
    fuel changes nothing); no segment contains the separator; writing a
    separator after every segment gives back the string, closed by a
    separator unless it is empty or already ends with one; and the result
    is the only list of separator-free segments with that property. *)
Theorem split_roundtrip (string : list ascii) (seperator : ascii) :
  exists segs,
    split string seperator = Some segs /\
    (forall fuel, (length string < fuel)%nat ->
                  split_loop fuel string seperator [] = Some segs) /\
    Forall (fun seg => seperator ∉ seg) segs /\
    join_terminated seperator segs = terminated string seperator /\
    (forall segs', Forall (fun seg => seperator ∉ seg) segs' ->
                   join_terminated seperator segs' = terminated string seperator ->
                   segs' = segs).
Proof.
  destruct (split_characterised string seperator) as (segs & Hrun & Hall & Hjoin).
  exists segs. split; [done|]. split; [|split; [done|split; [done|]]].
  - intros fuel Hfuel.
    destruct (split_loop_spec seperator fuel string []) as (segs' & -> & Hall' & Hjoin');
      [done|].
    f_equal. cbn. apply (join_terminated_unique seperator); [done|done|congruence].
  - intros segs' Hall' Hjoin'.
    apply (join_terminated_unique seperator); [done|done|congruence].
Qed.

(** X20: the edges of split.  An empty string has no segments; a separator
    at the end of a non-empty string that does not already end with one is
    dropped, so no empty last segment appears; a separator at the start
    gives an empty first segment. *)
Theorem split_edges (string : list ascii) (seperator : ascii) :
  split [] seperator = Some [] /\
  (string <> [] -> list.last string <> Some seperator ->
     split (string ++ [seperator]) seperator = split string seperator) /\
  (exists segs, split string seperator = Some segs /\
                split (seperator :: string) seperator = Some ([] :: segs)).
Proof.
  split; [reflexivity|]. split.
  - intros Hne Hlast.
    destruct (split_characterised string seperator) as (segs & -> & Hall & Hjoin).
    destruct (split_characterised (string ++ [seperator]) seperator)
      as (segs' & -> & Hall' & Hjoin').
    f_equal. apply (join_terminated_unique seperator); [done|done|].
    rewrite Hjoin, Hjoin'. unfold terminated. rewrite last_snoc, Ascii.eqb_refl.
    destruct (list.last string) as [c|] eqn:E.
    + destruct (Ascii.eqb_spec c seperator) as [->|_]; done.
    + by apply last_None in E.
  - destruct (split_characterised string seperator) as (segs & -> & Hall & Hjoin).
    destruct (split_characterised (seperator :: string) seperator)
      as (segs' & -> & Hall' & Hjoin').
    exists segs. split; [done|]. f_equal.
    apply (join_terminated_unique seperator);
      [done|constructor; [apply not_elem_of_nil|done]|].
    rewrite Hjoin', join_terminated_cons, Hjoin.
    apply (terminated_app_sep [] seperator string).
Qed.

Lemma split_edges_witness :
  split (["a"; "b"]%char ++ [","%char]) ","%char = split ["a"; "b"]%char ","%char.
Proof.
  apply (proj1 (proj2 (split_edges ["a"; "b"]%char ","%char))).
  - discriminate.
  - cbn. discriminate.
Defined.

Example split_sample :
  split sample_string ","%char = Some [["a"]; []; ["b"; "c"]]%char.
Proof. reflexivity. Qed.

Lemma split_roundtrip_witness :
  exists segs,
    split sample_string ","%char = Some segs /\
    (forall fuel, (length sample_string < fuel)%nat ->
                  split_loop fuel sample_string ","%char [] = Some segs) /\
    Forall (fun seg => ","%char ∉ seg) segs /\
    join_terminated ","%char segs = terminated sample_string ","%char /\
    (forall segs', Forall (fun seg => ","%char ∉ seg) segs' ->
                   join_terminated ","%char segs' = terminated sample_string ","%char ->
                   segs' = segs).
Proof. exact (split_roundtrip sample_string ","%char). Defined.

(** ** Square names *)

(** X21: the table of square names follows the numbering of the squares.
    It has 64 distinct entries, and the name of square [sq] is the letter of
    its file, ['a' + sq mod 8], followed by the digit of its rank,
    ['1' + sq / 8]. *)
Theorem squareNames_numbering (sq : Z) :
  length squareNames = 64%nat /\ NoDup squareNames /\
  (valid_square sq ->
     squareNames !! Z.to_nat sq
     = Some [ascii_of_nat (97 + Z.to_nat (sq mod 8));
             ascii_of_nat (49 + Z.to_nat (sq / 8))]).
Proof.
  split; [reflexivity|]. split.
  - apply (bool_decide_unpack (NoDup squareNames)). vm_compute. exact I.
  - intros Hsq.
    assert (Hn : exists n, (n < 64)%nat /\ sq = Z.of_nat n)
      by (exists (Z.to_nat sq); unfold valid_square in Hsq; lia).
    destruct Hn as (n & Hn & ->).
    do 64 (destruct n as [|n]; [reflexivity|]).
    lia.
Qed.

Lemma squareNames_numbering_witness :
  squareNames !! Z.to_nat 12
  = Some [ascii_of_nat (97 + Z.to_nat (12 mod 8)); ascii_of_nat (49 + Z.to_nat (12 / 8))].
Proof.
  apply (proj2 (proj2 (squareNames_numbering 12))). unfold valid_square. lia.
Defined.
